(** * Generalised Morse Wavelets: a shallow embedding of [gmw/wavelets.py]

    The development follows the Python class [MorseWavelet]: its
    constructor, [psi_f] (the wavelet in the frequency domain),
    [central_freq], [psi_t] and [cwt].

    Numbers.  A Python [float] and a NumPy [float64] are modelled by
    [float64]: a real number, one of the two infinities, or NaN.  The
    special values follow the IEEE-754 rules the code relies on
    ([log 0 = -inf], [exp (-inf) = 0], [0 * nan = nan], ...).  In this
    first embedding finite values are computed in exact real arithmetic
    and the two signed zeros are one value: it decides which calls raise
    and which special values come out, and its theorems are those that do
    not depend on the last digits of a result.  The one place where the
    range of binary64 changes the control flow is Python's [**], which
    raises [OverflowError]; there the range is modelled.

    Rounding.  The second embedding ([psi_f_fl], [central_freq_fl])
    follows the same lines of the source with the binary64 operations as
    parameters ([arith]), known only through their error bound
    ([accurate]); it carries the statements about values, which hold up
    to rounding.

    Errors.  Python exceptions are values of [exn]; a call returns
    [result A], either [Ok a] or [Raise e], and calls are sequenced with a
    small error monad. *)

From Stdlib Require Import Reals Lra Lia List String ZArith Bool.
Import ListNotations.

Open Scope R_scope.

(** ** Exceptions and the error monad *)

Inductive exn : Type :=
| ValueError (msg : string)
| ZeroDivisionError
| OverflowError
| NotImplementedError (msg : string).

Inductive result (A : Type) : Type :=
| Ok (a : A)
| Raise (e : exn).

Arguments Ok {A} a.
Arguments Raise {A} e.

Definition bind {A B : Type} (m : result A) (f : A -> result B) : result B :=
  match m with
  | Ok a => f a
  | Raise e => Raise e
  end.

Notation "x <- m ;; k" := (bind m (fun x => k))
  (at level 61, m at next level, right associativity).

Fixpoint mapM {A B : Type} (f : A -> result B) (l : list A) : result (list B) :=
  match l with
  | [] => Ok []
  | a :: l' => b <- f a ;; bs <- mapM f l' ;; Ok (b :: bs)
  end.

Definition returns {A : Type} (m : result A) : Prop :=
  exists a, m = Ok a.

(** ** The float model *)

Inductive float64 : Type :=
| Fin (x : R)
| PInf
| NInf
| NaN.

Definition Rltb (x y : R) : bool := if Rlt_dec x y then true else false.
Definition Reqb (x y : R) : bool := if Req_dec_T x y then true else false.

(** The infinity with the sign of [s]; [0 * inf] and [0 / 0] are NaN. *)
Definition inf_of_sign (s : R) : float64 :=
  if Rltb 0 s then PInf else if Rltb s 0 then NInf else NaN.

Definition isnan (x : float64) : bool :=
  match x with NaN => true | _ => false end.

Definition isfinite (x : float64) : bool :=
  match x with Fin _ => true | _ => false end.

Definition is_int (y : R) : bool := Reqb (frac_part y) 0.
Definition is_odd_int (y : R) : bool := is_int y && Z.odd (Int_part y).

(** The operations, under the names NumPy gives them. *)
Module F64.

(** Comparisons: every comparison with NaN is false. *)
Definition lt (x y : float64) : bool :=
  match x, y with
  | NaN, _ | _, NaN => false
  | Fin a, Fin b => Rltb a b
  | NInf, NInf => false
  | NInf, _ => true
  | _, NInf => false
  | PInf, _ => false
  | Fin _, PInf => true
  end.

Definition eqb (x y : float64) : bool :=
  match x, y with
  | Fin a, Fin b => Reqb a b
  | PInf, PInf | NInf, NInf => true
  | _, _ => false
  end.

Definition le (x y : float64) : bool := lt x y || eqb x y.
Definition gt (x y : float64) : bool := lt y x.

Definition neg (x : float64) : float64 :=
  match x with
  | Fin a => Fin (- a)
  | PInf => NInf
  | NInf => PInf
  | NaN => NaN
  end.

Definition abs (x : float64) : float64 :=
  match x with
  | Fin a => Fin (Rabs a)
  | PInf | NInf => PInf
  | NaN => NaN
  end.

Definition add (x y : float64) : float64 :=
  match x, y with
  | NaN, _ | _, NaN => NaN
  | Fin a, Fin b => Fin (a + b)
  | PInf, NInf | NInf, PInf => NaN
  | PInf, _ | _, PInf => PInf
  | NInf, _ | _, NInf => NInf
  end.

Definition sub (x y : float64) : float64 := add x (neg y).

Definition mul (x y : float64) : float64 :=
  match x, y with
  | NaN, _ | _, NaN => NaN
  | Fin a, Fin b => Fin (a * b)
  | Fin a, PInf | PInf, Fin a => inf_of_sign a
  | Fin a, NInf | NInf, Fin a => inf_of_sign (- a)
  | PInf, PInf | NInf, NInf => PInf
  | PInf, NInf | NInf, PInf => NInf
  end.

(** NumPy's [true_divide]: a zero divisor gives an infinity or NaN (and a
    warning), never an exception.  With one zero in the model the infinity
    has the sign that [+0.0] gives; no statement below depends on the sign
    of a quotient by zero. *)
Definition div (x y : float64) : float64 :=
  match x, y with
  | NaN, _ | _, NaN => NaN
  | Fin a, Fin b => if Reqb b 0 then inf_of_sign a else Fin (a / b)
  | Fin _, (PInf | NInf) => Fin 0
  | PInf, Fin b => if Rltb b 0 then NInf else PInf
  | NInf, Fin b => if Rltb b 0 then PInf else NInf
  | (PInf | NInf), (PInf | NInf) => NaN
  end.

Definition exp (x : float64) : float64 :=
  match x with
  | Fin a => Fin (Rtrigo_def.exp a)
  | PInf => PInf
  | NInf => Fin 0
  | NaN => NaN
  end.

(** [np.log]: [-inf] at zero, NaN below. *)
Definition log (x : float64) : float64 :=
  match x with
  | Fin a => if Rltb 0 a then Fin (ln a)
             else if Reqb a 0 then NInf else NaN
  | PInf => PInf
  | NInf => NaN
  | NaN => NaN
  end.

(** [np.power] on floats, the C [pow]: a negative base with an exponent
    that is not an integer gives NaN. *)
Definition pow (x y : float64) : float64 :=
  match y with
  | Fin b =>
      if Reqb b 0 then Fin 1 else
      match x with
      | Fin a =>
          if Rltb 0 a then Fin (Rpower a b)
          else if Reqb a 0 then (if Rltb 0 b then Fin 0 else PInf)
          else if is_int b then
                 (if Z.odd (Int_part b) then Fin (- Rpower (- a) b)
                  else Fin (Rpower (- a) b))
          else NaN
      | PInf => if Rltb 0 b then PInf else Fin 0
      | NInf => if Rltb 0 b then (if is_odd_int b then NInf else PInf)
                else Fin 0
      | NaN => NaN
      end
  | PInf =>
      match x with
      | Fin a => if Reqb (Rabs a) 1 then Fin 1
                 else if Rltb (Rabs a) 1 then Fin 0 else PInf
      | PInf | NInf => PInf
      | NaN => NaN
      end
  | NInf =>
      match x with
      | Fin a => if Reqb (Rabs a) 1 then Fin 1
                 else if Rltb (Rabs a) 1 then PInf else Fin 0
      | PInf | NInf => Fin 0
      | NaN => NaN
      end
  | NaN =>
      match x with
      | Fin a => if Reqb a 1 then Fin 1 else NaN
      | _ => NaN
      end
  end.

End F64.

(** Python's [/] on floats: a zero divisor raises. *)
Definition py_truediv (x y : float64) : result float64 :=
  match y with
  | Fin b => if Reqb b 0 then Raise ZeroDivisionError else Ok (F64.div x y)
  | _ => Ok (F64.div x y)
  end.

(** [np.heaviside x h]: 0 below zero, [h] at zero, 1 above, NaN at NaN. *)
Definition heaviside (x h : float64) : float64 :=
  match x with
  | Fin a => if Rltb a 0 then Fin 0 else if Reqb a 0 then h else Fin 1
  | PInf => Fin 1
  | NInf => Fin 0
  | NaN => NaN
  end.

Definition of_nat (n : nat) : float64 := Fin (INR n).

Declare Scope f64_scope.
Delimit Scope f64_scope with f64.
Infix "+" := F64.add : f64_scope.
Infix "-" := F64.sub : f64_scope.
Infix "*" := F64.mul : f64_scope.
Infix "/" := F64.div : f64_scope.
Infix "**" := F64.pow (at level 30, right associativity) : f64_scope.

(** A scalar argument is a Python number or a NumPy scalar (what iterating
    over an [ndarray] yields).  The two differ in division by zero. *)
Inductive scalar : Type :=
| PyFloat (x : float64)
| NpFloat (x : float64).

Definition sval (s : scalar) : float64 :=
  match s with PyFloat x | NpFloat x => x end.

(** [a / scale] for a Python number [a]. *)
Definition truediv (a : float64) (s : scalar) : result float64 :=
  match s with
  | PyFloat y => py_truediv a y
  | NpFloat y => Ok (F64.div a y)
  end.

(** The range of binary64 under rounding to nearest: a magnitude of
    [2^1024 - 2^970] or more rounds to an infinity, a magnitude of
    [2^-1075] or less rounds to zero. *)
Definition float_overflow : R := 2 ^ 1024 - 2 ^ 970.
Definition float_underflow : R := / 2 ^ 1075.

(** Python's [**] on two floats (CPython's [float_pow]).  It agrees with
    the C [pow] except that a zero base with a negative exponent raises
    [ZeroDivisionError], that a result which overflows, from finite
    operands, raises [OverflowError] (a result which underflows is 0.0,
    silently), and that a negative base with a fractional exponent yields a
    [complex]; the latter is outside [float64], and
    [init_base_not_negative] below shows that an object built by the
    constructor never reaches it. *)
Definition py_pow (x y : float64) : result float64 :=
  if F64.eqb x (Fin 0) && F64.lt y (Fin 0) then Raise ZeroDivisionError
  else match F64.pow x y with
       | Fin v =>
           if Rltb (Rabs v) float_overflow then
             Ok (Fin (if Rltb float_underflow (Rabs v) then v else 0))
           else Raise OverflowError
       | v => Ok v
       end.

(** The argument [freqs] of [psi_f]: a NumPy array, or a NumPy [float64]
    scalar, which NumPy computes like an array element.  A Python [float]
    passed as [freqs] is not an [operand]: [aw ** gamma] is then Python's
    own [**], which raises [OverflowError] or yields a [complex]; the
    signature asks for an [np.ndarray], and that is what [cwt] passes. *)
Inductive operand : Type :=
| Scalar (x : float64)
| Array (xs : list float64).

Definition operand_map (f : float64 -> float64) (o : operand) : operand :=
  match o with
  | Scalar x => Scalar (f x)
  | Array xs => Array (map f xs)
  end.

(** ** The special functions the module imports from SciPy *)

(** Modelled from the spec: [scipy.special.eval_genlaguerre] is not part of
    the repository; the spec asks for the generalized Laguerre polynomial
    of the standard three-term recurrence.  With an integer order SciPy
    runs the recurrence below in float arithmetic, after rejecting
    [alpha <= -1] and after returning NaN when [alpha] or [x] is NaN, also
    for order 0 (SciPy 1.5 and later; earlier releases returned 1 at order
    0 whatever [x]). *)
Fixpoint genlaguerre_loop (steps kk : nat) (alpha x d p : float64) : float64 :=
  match steps with
  | O => p
  | S m =>
      let k := of_nat (kk + 1) in
      let den := ((k + alpha) + Fin 1)%f64 in
      let d' := (((F64.neg x / den) * p) + ((k / den) * d))%f64 in
      genlaguerre_loop m (S kk) alpha x d' (d' + p)%f64
  end.

(** [binom (n + alpha) n], the product of [(alpha + i) / i] for [i = 1..n]. *)
Fixpoint genlaguerre_binom (n : nat) (alpha : float64) : float64 :=
  match n with
  | O => Fin 1
  | S m => (genlaguerre_binom m alpha * ((alpha + of_nat n) / of_nat n))%f64
  end.

Definition eval_genlaguerre (n : nat) (alpha x : float64) : float64 :=
  if F64.le alpha (Fin (-1)) then NaN
  else if isnan alpha || isnan x then NaN
  else match n with
       | O => Fin 1
       | S O => ((F64.neg x + alpha) + Fin 1)%f64
       | S (S m) =>
           let d := (F64.neg x / (alpha + Fin 1))%f64 in
           (genlaguerre_binom n alpha
            * genlaguerre_loop (S m) 0 alpha x d (d + Fin 1))%f64
       end.

(** ** Binary64 arithmetic up to rounding *)

(** The operations of binary64 on finite operands, as the code gets them
    from the processor, the C library and NumPy: each takes real numbers
    (the values of finite floats) and returns a float, possibly an
    infinity.  They are parameters: a statement about rounded values
    assumes of them the error bound it needs ([accurate] below). *)
Record arith : Type := mkArith {
  fl_add : R -> R -> float64;        (* [+], and [-] through the negation *)
  fl_mul : R -> R -> float64;        (* [*] *)
  fl_div : R -> R -> float64;        (* [/], divisor other than 0 *)
  fl_pow : R -> R -> float64;        (* the C [pow] behind Python's [**] *)
  np_exp : R -> float64;             (* [np.exp] *)
  np_log : R -> float64;             (* [np.log], positive argument *)
  np_pow : R -> R -> float64;        (* [np.power], positive base *)
  np_pi : R;                         (* [np.pi] *)
  (* [scipy.special.eval_genlaguerre] at the orders above 0 *)
  sp_genlaguerre : nat -> float64 -> float64 -> float64
}.

(** The operations on [float64]: the parameter on finite operands, the
    IEEE-754 rules of [F64] on the others. *)
Definition radd (fl : arith) (x y : float64) : float64 :=
  match x, y with
  | Fin a, Fin b => fl_add fl a b
  | _, _ => F64.add x y
  end.

Definition rsub (fl : arith) (x y : float64) : float64 :=
  radd fl x (F64.neg y).

Definition rmul (fl : arith) (x y : float64) : float64 :=
  match x, y with
  | Fin a, Fin b => fl_mul fl a b
  | _, _ => F64.mul x y
  end.

Definition rdiv (fl : arith) (x y : float64) : float64 :=
  match x, y with
  | Fin a, Fin b => if Reqb b 0 then inf_of_sign a else fl_div fl a b
  | _, _ => F64.div x y
  end.

Definition rexp (fl : arith) (x : float64) : float64 :=
  match x with
  | Fin a => np_exp fl a
  | _ => F64.exp x
  end.

Definition rlog (fl : arith) (x : float64) : float64 :=
  match x with
  | Fin a => if Rltb 0 a then np_log fl a else F64.log x
  | _ => F64.log x
  end.

(** A power function [p] of positive bases, extended as the C [pow] is. *)
Definition pow_with (p : R -> R -> float64) (x y : float64) : float64 :=
  match x, y with
  | Fin a, Fin b =>
      if Reqb b 0 then Fin 1
      else if Rltb 0 a then p a b
      else if Reqb a 0 then (if Rltb 0 b then Fin 0 else PInf)
      else if is_int b then
             (if Z.odd (Int_part b) then F64.neg (p (- a) b) else p (- a) b)
      else NaN
  | _, _ => F64.pow x y
  end.

Definition rpow (fl : arith) (x y : float64) : float64 :=
  pow_with (np_pow fl) x y.

(** Python's [/] and [**] on floats: a zero divisor raises, and so does a
    power of finite operands that is an infinity. *)
Definition py_rdiv (fl : arith) (x y : float64) : result float64 :=
  match y with
  | Fin b => if Reqb b 0 then Raise ZeroDivisionError else Ok (rdiv fl x y)
  | _ => Ok (rdiv fl x y)
  end.

Definition rtruediv (fl : arith) (a : float64) (s : scalar) : result float64 :=
  match s with
  | PyFloat y => py_rdiv fl a y
  | NpFloat y => Ok (rdiv fl a y)
  end.

Definition py_rpow (fl : arith) (x y : float64) : result float64 :=
  if F64.eqb x (Fin 0) && F64.lt y (Fin 0) then Raise ZeroDivisionError
  else match x, y, pow_with (fl_pow fl) x y with
       | Fin _, Fin _, (PInf | NInf) => Raise OverflowError
       | _, _, v => Ok v
       end.

(** [eval_genlaguerre]: the guards and the order 0 involve no rounding. *)
Definition eval_genlaguerre_fl (fl : arith) (n : nat) (alpha x : float64)
    : float64 :=
  if F64.le alpha (Fin (-1)) then NaN
  else if isnan alpha || isnan x then NaN
  else match n with
       | O => Fin 1
       | S _ => sp_genlaguerre fl n alpha x
       end.

(** The smallest normal number and a bound below the largest float. *)
Definition tiny : R := / 2 ^ 1022.
Definition huge : R := 2 ^ 1023.

(** [v] is the real number [x] rounded with the relative error [eps]
    (and, below the normal range, with the absolute error [eps * tiny]). *)
Definition rounds (eps : R) (v : float64) (x : R) : Prop :=
  exists y, v = Fin y /\ Rabs (y - x) <= eps * Rmax (Rabs x) tiny.

(** The standard model of floating-point arithmetic: every operation
    whose exact result is within the range returns that result rounded.
    For binary64 [+], [*], [/] it holds with [eps = 2^-53]; for [np.pi]
    too; for [exp], [log] and [pow] with the accuracy of the library, a
    few units in the last place. *)
Record accurate (eps : R) (fl : arith) : Prop := mkAccurate {
  acc_add : forall a b, Rabs (a + b) <= huge -> rounds eps (fl_add fl a b) (a + b);
  acc_mul : forall a b, Rabs (a * b) <= huge -> rounds eps (fl_mul fl a b) (a * b);
  acc_div : forall a b, b <> 0 -> Rabs (a / b) <= huge ->
            rounds eps (fl_div fl a b) (a / b);
  acc_fl_pow : forall a b, 0 < a -> Rpower a b <= huge ->
               rounds eps (fl_pow fl a b) (Rpower a b);
  acc_np_pow : forall a b, 0 < a -> Rpower a b <= huge ->
               rounds eps (np_pow fl a b) (Rpower a b);
  acc_exp : forall a, exp a <= huge -> rounds eps (np_exp fl a) (exp a);
  acc_log : forall a, 0 < a -> rounds eps (np_log fl a) (ln a);
  acc_pi : Rabs (np_pi fl - PI) <= eps * PI
}.

(** Arithmetic without rounding: the instance that the first embedding
    uses throughout. *)
Definition exact_arith : arith := {|
  fl_add := fun a b => Fin (a + b);
  fl_mul := fun a b => Fin (a * b);
  fl_div := fun a b => Fin (a / b);
  fl_pow := fun a b => Fin (Rpower a b);
  np_exp := fun a => Fin (exp a);
  np_log := fun a => Fin (ln a);
  np_pow := fun a b => Fin (Rpower a b);
  np_pi := PI;
  sp_genlaguerre := eval_genlaguerre
|}.

Section Wavelets.

(** Modelled from the spec: [scipy.special.loggamma] is not part of the
    repository, and the Standard Library has no Gamma function.  The
    logarithm of Gamma on the positive reals is a parameter, [lngamma];
    the theorems that need its value state what they need of it. *)
Variable lngamma : R -> R.

Definition loggamma (x : float64) : float64 :=
  match x with
  | Fin a => if Rltb 0 a then Fin (lngamma a)
             else if Reqb a 0 then PInf else NaN
  | PInf => PInf
  | NInf => NaN
  | NaN => NaN
  end.

(** ** The class [MorseWavelet] *)

Record MorseWavelet : Type := mkMorseWavelet {
  beta : float64;
  gamma : float64;
  norm : string
}.

(** [MorseWavelet.__init__]. *)
Definition init (beta gamma : float64) (norm : string) : result MorseWavelet :=
  if F64.le beta (Fin 0) || F64.le gamma (Fin 0) then
    Raise (ValueError "β and γ parameters must be both greater than 0.")
  else if negb (String.eqb norm "analytic" || String.eqb norm "energy") then
    Raise (ValueError "Norm can only be `analytic` or `energy`.")
  else Ok (mkMorseWavelet beta gamma norm).

(** The defaults of the constructor: [beta=8, gamma=3, norm='analytic']. *)
Definition init_default : result MorseWavelet :=
  init (Fin 8) (Fin 3) "analytic".

(** [psi_f], lines 47-59: the exponent [r] and the logarithm of the
    normalisation constant. *)
Definition psi_f_r (self : MorseWavelet) : result float64 :=
  py_truediv ((Fin 2 * beta self) + Fin 1)%f64 (gamma self).

Definition psi_f_logA (self : MorseWavelet) (r : float64) (scale : scalar)
    (k : nat) : result float64 :=
  if String.eqb (norm self) "energy" then
    q <- truediv (Fin PI * gamma self)%f64 scale ;;
    Ok (Fin (1/2) * (((F64.log q
                       + ((r + Fin 1) * F64.log (Fin 2)))
                      + loggamma (of_nat k + Fin 1))
                     - loggamma (of_nat k + r)))%f64
  else
    q <- truediv (Fin 2) scale ;;
    bg <- py_truediv (beta self) (gamma self) ;;
    gb <- py_truediv (gamma self) (beta self) ;;
    Ok (F64.log q + (bg * (Fin 1 + F64.log gb)))%f64.

(** [psi_f], lines 62-78, at one frequency. *)
Definition psi_f_at (self : MorseWavelet) (r logA : float64) (scale : float64)
    (k : nat) (freq : float64) : float64 :=
  let aw := (((scale * Fin 2) * Fin PI) * freq)%f64 in
  let H := heaviside aw (Fin (1/2)) in
  let wav0 :=
    ((scale * H)
     * F64.exp ((logA - aw ** gamma self) + (beta self * F64.log aw)))%f64 in
  let wav0 := if isnan wav0 then Fin 0 else wav0 in
  (wav0 * eval_genlaguerre k (r - Fin 1) (Fin 2 * aw ** gamma self))%f64.

(** [psi_f(self, freqs, scale=1, k=0)]. *)
Definition psi_f (self : MorseWavelet) (freqs : operand) (scale : scalar)
    (k : nat) : result operand :=
  r <- psi_f_r self ;;
  logA <- psi_f_logA self r scale k ;;
  Ok (operand_map (psi_f_at self r logA (sval scale) k) freqs).

(** [central_freq], line 81: [(beta / gamma) ** (1 / gamma)]. *)
Definition central_freq_base (self : MorseWavelet) : result float64 :=
  q <- py_truediv (beta self) (gamma self) ;;
  e <- py_truediv (Fin 1) (gamma self) ;;
  py_pow q e.

(** [central_freq(self, scale=1)] for a scalar [scale]. *)
Definition central_freq (self : MorseWavelet) (scale : scalar) : result float64 :=
  p <- central_freq_base self ;;
  d <- truediv p scale ;;
  Ok ((d * Fin (1/2)) / Fin PI)%f64.

(** [central_freq(scales)] for an array of scales, as [cwt] calls it: the
    division is NumPy's, element by element. *)
Definition central_freq_nd (self : MorseWavelet) (scales : list float64)
    : result (list float64) :=
  p <- central_freq_base self ;;
  Ok (map (fun s => ((p / s) * Fin (1/2)) / Fin PI)%f64 scales).

(** [psi_t]: not implemented in the source. *)
Definition psi_t (self : MorseWavelet) (length : nat) (scale : scalar)
    (k : nat) : result operand :=
  Raise (NotImplementedError "TODO").

(** ** The FFT routines the module imports from [scipy.fft] *)

Definition complex : Type := (float64 * float64)%type.

Definition czero : complex := (Fin 0, Fin 0).

Definition cadd (a b : complex) : complex :=
  (fst a + fst b, snd a + snd b)%f64.

Definition cmul (a b : complex) : complex :=
  ((fst a * fst b) - (snd a * snd b), (fst a * snd b) + (snd a * fst b))%f64.

(** A [float64] operand of a complex product is first cast to complex. *)
Definition of_real (x : float64) : complex := (x, Fin 0).

(** [exp (sign * 2 pi i * j * k / n)]. *)
Definition twiddle (sign : R) (n j k : nat) : complex :=
  let theta := sign * 2 * PI * INR j * INR k / INR n in
  (Fin (cos theta), Fin (sin theta)).

(** [x] cut or padded with zeros to length [n]. *)
Definition resize (x : list complex) (n : nat) : list complex :=
  firstn n x ++ repeat czero (n - List.length x).

Definition dft_at (sign : R) (x : list complex) (k : nat) : complex :=
  fold_left cadd
    (map (fun jx => cmul (snd jx) (twiddle sign (List.length x) (fst jx) k))
         (combine (seq 0 (List.length x)) x))
    czero.

Definition dft (sign : R) (x : list complex) : list complex :=
  map (dft_at sign x) (seq 0 (List.length x)).

(** Modelled from the spec: [scipy.fft.fft(x, n)], the discrete Fourier
    transform of [x] at length [n]; SciPy rejects [n < 1]. *)
Definition fft (x : list complex) (n : nat) : result (list complex) :=
  if Nat.eqb n 0 then
    Raise (ValueError "invalid number of data points (0) specified")
  else Ok (dft (-1) (resize x n)).

(** Modelled from the spec: [scipy.fft.ifft(x, n)] along the last axis. *)
Definition ifft (x : list complex) (n : nat) : result (list complex) :=
  if Nat.eqb n 0 then
    Raise (ValueError "invalid number of data points (0) specified")
  else Ok (map (fun c => cmul c (of_real (Fin (/ INR n))))
               (dft 1 (resize x n))).

(** [m] with its factors [p] removed. *)
Fixpoint strip_factor (fuel p m : nat) : nat :=
  match fuel with
  | O => m
  | S fuel' =>
      if Nat.ltb 0 m && Nat.eqb (m mod p) 0
      then strip_factor fuel' p (m / p) else m
  end.

Definition smooth11 (m : nat) : bool :=
  Nat.eqb
    (strip_factor m 11
       (strip_factor m 7 (strip_factor m 5 (strip_factor m 3 (strip_factor m 2 m)))))
    1.

(** Modelled from the spec: [scipy.fft.next_fast_len], the least length
    not below [n] whose prime factors are among 2, 3, 5, 7 and 11 (a power
    of two lies between [n] and [2 n]); 0 for 0. *)
Definition next_fast_len (n : nat) : nat :=
  match find smooth11 (seq n (S n)) with
  | Some m => m
  | None => n
  end.

(** Python's [n * d] and [1.0 / (n * d)] with an integer [n]. *)
Definition scalar_scale (n : nat) (d : scalar) : scalar :=
  match d with
  | PyFloat y => PyFloat (of_nat n * y)%f64
  | NpFloat y => NpFloat (of_nat n * y)%f64
  end.

(** Modelled from the spec: [scipy.fft.fftfreq(n, d)], NumPy's helper: the
    bins [0, 1, ..., (n-1)//2, -(n//2), ..., -1] times [1.0 / (n * d)]. *)
Definition fftfreq (n : nat) (d : scalar) : result (list float64) :=
  val <- truediv (Fin 1) (scalar_scale n d) ;;
  let N := Z.to_nat ((Z.of_nat n - 1) / 2 + 1) in
  let p1 := map Z.of_nat (seq 0 N) in
  let p2 := map (fun j => (Z.of_nat j - Z.of_nat (n / 2))%Z) (seq 0 (n / 2)) in
  Ok (map (fun i => (Fin (IZR i) * val)%f64) (p1 ++ p2)).

(** ** [cwt] *)

(** The coefficient array: two-dimensional, one row per scale; with no
    scale at all [np.array([])] is one-dimensional and so is the result. *)
Inductive coeffs : Type :=
| Coeffs1 (row : list complex)
| Coeffs2 (rows : list (list complex)).

(** [f_sig * psi] followed by [ifft(..., n=n)].  NumPy broadcasts [f_sig]
    along the rows of [psi]; an empty [psi] has shape (0,), which
    broadcasts against [f_sig] only when the latter has length 1. *)
Definition mul_ifft (f_sig : list complex) (psi : list (list float64))
    (n : nat) : result coeffs :=
  match psi with
  | [] =>
      if Nat.eqb (List.length f_sig) 1 then
        row <- ifft [] n ;; Ok (Coeffs1 row)
      else Raise (ValueError "operands could not be broadcast together")
  | _ :: _ =>
      rows <- mapM (fun row =>
                      ifft (map (fun cp => cmul (fst cp) (of_real (snd cp)))
                                (combine f_sig row)) n) psi ;;
      Ok (Coeffs2 rows)
  end.

(** [cwt(self, signal, scales, dt=1)]. *)
Definition cwt (self : MorseWavelet) (signal : list complex)
    (scales : list float64) (dt : scalar)
    : result (list float64 * coeffs) :=
  let n := List.length signal in
  let fast_len := next_fast_len n in
  fs <- fftfreq fast_len dt ;;
  f_sig <- fft signal fast_len ;;
  psi <- mapM (fun scale =>
                 o <- psi_f self (Array fs) (NpFloat scale) 0 ;;
                 match o with
                 | Array row => Ok row
                 | Scalar x => Ok [x] (* not reached: [fs] is an array *)
                 end) scales ;;
  W <- mul_ifft f_sig psi n ;;
  freqs <- central_freq_nd self scales ;;
  Ok (freqs, W).

(** ** [psi_f] and [central_freq] up to rounding *)

(** The same lines of the source as above, with the operations of an
    [arith]. *)
Definition psi_f_r_fl (fl : arith) (self : MorseWavelet) : result float64 :=
  py_rdiv fl (radd fl (rmul fl (Fin 2) (beta self)) (Fin 1)) (gamma self).

Definition psi_f_logA_fl (fl : arith) (self : MorseWavelet) (r : float64)
    (scale : scalar) (k : nat) : result float64 :=
  if String.eqb (norm self) "energy" then
    q <- rtruediv fl (rmul fl (Fin (np_pi fl)) (gamma self)) scale ;;
    Ok (rmul fl (Fin (1/2))
          (rsub fl
             (radd fl
                (radd fl (rlog fl q)
                         (rmul fl (radd fl r (Fin 1)) (rlog fl (Fin 2))))
                (loggamma (of_nat k + Fin 1)%f64))
             (loggamma (radd fl (of_nat k) r))))
  else
    q <- rtruediv fl (Fin 2) scale ;;
    bg <- py_rdiv fl (beta self) (gamma self) ;;
    gb <- py_rdiv fl (gamma self) (beta self) ;;
    Ok (radd fl (rlog fl q) (rmul fl bg (radd fl (Fin 1) (rlog fl gb)))).

Definition psi_f_at_fl (fl : arith) (self : MorseWavelet)
    (r logA : float64) (scale : float64) (k : nat) (freq : float64) : float64 :=
  let aw := rmul fl (rmul fl (rmul fl scale (Fin 2)) (Fin (np_pi fl))) freq in
  let H := heaviside aw (Fin (1/2)) in
  let wav0 :=
    rmul fl (rmul fl scale H)
      (rexp fl (radd fl (rsub fl logA (rpow fl aw (gamma self)))
                        (rmul fl (beta self) (rlog fl aw)))) in
  let wav0 := if isnan wav0 then Fin 0 else wav0 in
  rmul fl wav0
    (eval_genlaguerre_fl fl k (rsub fl r (Fin 1))
       (rmul fl (Fin 2) (rpow fl aw (gamma self)))).

Definition psi_f_fl (fl : arith) (self : MorseWavelet) (freqs : operand)
    (scale : scalar) (k : nat) : result operand :=
  r <- psi_f_r_fl fl self ;;
  logA <- psi_f_logA_fl fl self r scale k ;;
  Ok (operand_map (psi_f_at_fl fl self r logA (sval scale) k) freqs).

Definition central_freq_base_fl (fl : arith) (self : MorseWavelet)
    : result float64 :=
  q <- py_rdiv fl (beta self) (gamma self) ;;
  e <- py_rdiv fl (Fin 1) (gamma self) ;;
  py_rpow fl q e.

Definition central_freq_fl (fl : arith) (self : MorseWavelet) (scale : scalar)
    : result float64 :=
  p <- central_freq_base_fl fl self ;;
  d <- rtruediv fl p scale ;;
  Ok (rdiv fl (rmul fl d (Fin (1/2))) (Fin (np_pi fl))).

(** ** Notions used by the statements *)

(** The value of [psi_f] at a real frequency [f], as a real number (0 when
    the call raises or the value is not a number). *)
Definition psi_f_real (self : MorseWavelet) (scale : R) (k : nat) (f : R) : R :=
  match psi_f self (Scalar (Fin f)) (PyFloat (Fin scale)) k with
  | Ok (Scalar (Fin y)) => y
  | _ => 0
  end.

(** [h] has integral [v] over the non-negative reals: it is Riemann
    integrable on every [[0, F]], and the integrals tend to [v]. *)
Definition integral_0_inf (h : R -> R) (v : R) : Prop :=
  (forall F, 0 <= F -> inhabited (Riemann_integrable h 0 F)) /\
  forall eps, 0 < eps ->
    exists F0, 0 <= F0 /\
      forall F (pr : Riemann_integrable h 0 F),
        F0 <= F -> Rabs (RiemannInt pr - v) < eps.

(** The integrand of Euler's integral for Gamma at [r]. *)
Definition gamma_integrand (r t : R) : R := Rpower t (r - 1) * exp (- t).

(** [v] is Gamma at [r]: the integral of [t^(r-1) exp(-t)] over the
    positive reals, improper at both ends. *)
Definition Gamma_integral (r v : R) : Prop :=
  forall eps, 0 < eps ->
    exists a0 T0, 0 < a0 /\ a0 <= T0 /\
      forall a T (pr : Riemann_integrable (gamma_integrand r) a T),
        0 < a -> a <= a0 -> T0 <= T -> Rabs (RiemannInt pr - v) < eps.

(** The shape of a coefficient array: (rows, columns) when it is
    two-dimensional with rows of one length. *)
Definition has_shape (W : coeffs) (rows cols : nat) : Prop :=
  match W with
  | Coeffs1 _ => False
  | Coeffs2 rs => List.length rs = rows /\ Forall (fun r => List.length r = cols) rs
  end.

(** The intermediate values of [psi_f] at real parameters: the exponent
    [r], the logarithm of the normalisation constant, and the value of the
    base wavelet at a positive frequency. *)
Definition r_real (b g : R) : R := (2 * b + 1) / g.

Definition logA_real (n : string) (b g s : R) (k : nat) : R :=
  if String.eqb n "energy" then
    1 / 2 * (ln (PI * g / s) + (r_real b g + 1) * ln 2
             + lngamma (INR k + 1) - lngamma (INR k + r_real b g))
  else ln (2 / s) + b / g * (1 + ln (g / b)).

Definition morse_real (b g la s f : R) : R :=
  s * exp (la - Rpower (s * 2 * PI * f) g + b * ln (s * 2 * PI * f)).

(** The value of the base wavelet at its central frequency. *)
Definition peak_real (b g la s : R) : R :=
  s * exp (la - b / g + b / g * ln (b / g)).

(** The integrand of the energy: [psi_f(f, scale) ** 2] for the base
    wavelet. *)
Definition energy_density (self : MorseWavelet) (scale f : R) : R :=
  (psi_f_real self scale 0 f)².

(** The change of variable that turns the energy into Euler's integral:
    [t = 2 * aw ** gamma] (the argument of the Laguerre factor), and the
    constant that comes out of it. *)
Definition gamma_arg (g s f : R) : R := 2 * Rpower (s * 2 * PI * f) g.

Definition energy_scale (b g la s : R) : R :=
  s² * exp (2 * la) / (Rpower 2 (r_real b g - 1) * 2 * g * (s * 2 * PI)).

(** * Properties *)

(** ** Deciding comparisons of reals *)

Lemma Rltb_true (x y : R) : x < y -> Rltb x y = true.
Proof. intros H. unfold Rltb. destruct (Rlt_dec x y); [reflexivity | contradiction]. Qed.

Lemma Rltb_false (x y : R) : ~ x < y -> Rltb x y = false.
Proof. intros H. unfold Rltb. destruct (Rlt_dec x y); [contradiction | reflexivity]. Qed.

Lemma Reqb_true (x y : R) : x = y -> Reqb x y = true.
Proof. intros H. unfold Reqb. destruct (Req_dec_T x y); [reflexivity | contradiction]. Qed.

Lemma Reqb_false (x y : R) : x <> y -> Reqb x y = false.
Proof. intros H. unfold Reqb. destruct (Req_dec_T x y); [contradiction | reflexivity]. Qed.

Lemma Rltb_spec (x y : R) : Rltb x y = true <-> x < y.
Proof. unfold Rltb. destruct (Rlt_dec x y); split; intros; try assumption; try reflexivity; try discriminate; contradiction. Qed.

Lemma Reqb_spec (x y : R) : Reqb x y = true <-> x = y.
Proof. unfold Reqb. destruct (Req_dec_T x y); split; intros; try assumption; try reflexivity; try discriminate; contradiction. Qed.

(** Rewrites every decided comparison whose outcome [lra] can settle. *)
Ltac decide_R :=
  repeat match goal with
    | |- context [Rltb ?x ?y] =>
        first [ rewrite (Rltb_true x y) by lra
              | rewrite (Rltb_false x y) by lra ]
    | |- context [Reqb ?x ?y] =>
        first [ rewrite (Reqb_true x y) by lra
              | rewrite (Reqb_false x y) by lra ]
    end.

Lemma PI_neq_0 : PI <> 0.
Proof. pose proof PI_RGT_0. lra. Qed.

(** ** The constructor *)

Lemma le_Fin_0 (x : R) : F64.le (Fin x) (Fin 0) = true <-> x <= 0.
Proof.
  unfold F64.le, F64.lt, F64.eqb. rewrite orb_true_iff, Rltb_spec, Reqb_spec. lra.
Qed.

Lemma gt_le_0 (x : float64) : F64.gt x (Fin 0) = true -> F64.le x (Fin 0) = false.
Proof.
  destruct x as [a| | |]; unfold F64.gt, F64.le, F64.lt, F64.eqb; try discriminate; try reflexivity.
  rewrite Rltb_spec. intros H. rewrite Rltb_false, Reqb_false by lra. reflexivity.
Qed.

Lemma init_ok (b g : float64) (n : string) :
  F64.gt b (Fin 0) = true -> F64.gt g (Fin 0) = true ->
  n = "analytic"%string \/ n = "energy"%string ->
  init b g n = Ok (mkMorseWavelet b g n).
Proof.
  intros Hb Hg Hn. unfold init.
  rewrite (gt_le_0 _ Hb), (gt_le_0 _ Hg). simpl.
  destruct Hn as [-> | ->]; reflexivity.
Qed.

Lemma init_raises (b g : float64) (n : string) :
  F64.le b (Fin 0) = true \/ F64.le g (Fin 0) = true \/
  (n <> "analytic"%string /\ n <> "energy"%string) ->
  exists msg, init b g n = Raise (ValueError msg).
Proof.
  intros H. unfold init.
  destruct (F64.le b (Fin 0) || F64.le g (Fin 0)) eqn:E; [eauto |].
  apply orb_false_iff in E. destruct E as [Eb Eg].
  destruct H as [H | [H | [H1 H2]]]; try congruence.
  apply String.eqb_neq in H1, H2. rewrite H1, H2. simpl. eauto.
Qed.

(** C5. The constructor raises [ValueError] (the spec's InvalidParameter)
    when [beta <= 0], when [gamma <= 0], and when [norm] is neither
    'analytic' nor 'energy'; with [beta > 0], [gamma > 0] and one of the two
    norms it returns the object. *)
Theorem init_validation (b g : float64) (n : string) :
  (F64.le b (Fin 0) = true \/ F64.le g (Fin 0) = true \/
   (n <> "analytic"%string /\ n <> "energy"%string) ->
   exists msg, init b g n = Raise (ValueError msg))
  /\
  (F64.gt b (Fin 0) = true -> F64.gt g (Fin 0) = true ->
   n = "analytic"%string \/ n = "energy"%string ->
   init b g n = Ok (mkMorseWavelet b g n)).
Proof.
  split; [apply init_raises | apply init_ok].
Qed.

(** ** [central_freq] *)

Lemma div_pos (a b : R) : 0 < a -> 0 < b -> 0 < a / b.
Proof. intros Ha Hb. apply Rdiv_lt_0_compat; assumption. Qed.

Lemma Rpower_pos (x y : R) : 0 < Rpower x y.
Proof. unfold Rpower. apply exp_pos. Qed.

Lemma float_underflow_pos : 0 < float_underflow.
Proof. unfold float_underflow. apply Rinv_0_lt_compat. lra. Qed.

(** The three outcomes of Python's [**] on a positive base: the power, when
    it is within the range of the floats; [OverflowError] above it; 0
    below it. *)
Lemma py_pow_in_range (a b : R) :
  0 < a -> float_underflow < Rpower a b -> Rpower a b < float_overflow ->
  py_pow (Fin a) (Fin b) = Ok (Fin (Rpower a b)).
Proof.
  intros Ha Hlo Hhi. pose proof float_underflow_pos as Hu.
  assert (E : F64.pow (Fin a) (Fin b) = Fin (Rpower a b)).
  { unfold F64.pow. destruct (Req_dec_T b 0) as [-> | Hb].
    - rewrite Reqb_true by reflexivity. rewrite Rpower_O by assumption. reflexivity.
    - rewrite (Reqb_false b 0), (Rltb_true 0 a) by assumption. reflexivity. }
  unfold py_pow. rewrite E.
  replace (F64.eqb (Fin a) (Fin 0)) with false
    by (symmetry; apply Reqb_false; lra).
  cbn [andb]. rewrite Rabs_pos_eq by lra.
  rewrite (Rltb_true _ _ Hhi), (Rltb_true _ _ Hlo). reflexivity.
Qed.

Lemma py_pow_overflow (a b : R) :
  0 < a -> float_overflow <= Rpower a b ->
  py_pow (Fin a) (Fin b) = Raise OverflowError.
Proof.
  intros Ha Hhi.
  assert (Hb : b <> 0).
  { intros ->. rewrite Rpower_O in Hhi by assumption.
    unfold float_overflow in Hhi. lra. }
  unfold py_pow, F64.pow.
  replace (F64.eqb (Fin a) (Fin 0)) with false
    by (symmetry; apply Reqb_false; lra).
  cbn [andb]. rewrite (Reqb_false b 0), (Rltb_true 0 a) by assumption.
  pose proof (Rpower_pos a b).
  rewrite Rabs_pos_eq by lra.
  rewrite Rltb_false by lra. reflexivity.
Qed.

Lemma py_pow_underflow (a b : R) :
  0 < a -> Rpower a b <= float_underflow ->
  py_pow (Fin a) (Fin b) = Ok (Fin 0).
Proof.
  intros Ha Hlo.
  assert (Hu1 : float_underflow < 1) by (unfold float_underflow; lra).
  assert (Hov : 1 < float_overflow) by (unfold float_overflow; lra).
  assert (Hb : b <> 0).
  { intros ->. rewrite Rpower_O in Hlo by assumption. lra. }
  unfold py_pow, F64.pow.
  replace (F64.eqb (Fin a) (Fin 0)) with false
    by (symmetry; apply Reqb_false; lra).
  cbn [andb]. rewrite (Reqb_false b 0), (Rltb_true 0 a) by assumption.
  pose proof (Rpower_pos a b).
  rewrite Rabs_pos_eq by lra.
  rewrite Rltb_true by lra. rewrite Rltb_false by lra. reflexivity.
Qed.


Lemma central_freq_base_real (b g : R) (n : string) :
  g <> 0 ->
  central_freq_base (mkMorseWavelet (Fin b) (Fin g) n)
  = py_pow (Fin (b / g)) (Fin (1 / g)).
Proof.
  intros Hg. unfold central_freq_base, py_truediv. cbn [beta gamma].
  rewrite (Reqb_false g 0) by assumption. cbn [bind F64.div].
  rewrite (Reqb_false g 0) by assumption. reflexivity.
Qed.

Lemma central_freq_base_pos (b g : R) (n : string) :
  0 < b -> 0 < g ->
  float_underflow < Rpower (b / g) (1 / g) ->
  Rpower (b / g) (1 / g) < float_overflow ->
  central_freq_base (mkMorseWavelet (Fin b) (Fin g) n)
  = Ok (Fin (Rpower (b / g) (1 / g))).
Proof.
  intros Hb Hg Hlo Hhi.
  rewrite central_freq_base_real by lra.
  apply py_pow_in_range; [apply div_pos |..]; assumption.
Qed.


(** With [1 <= beta / gamma] and [1 <= gamma] the power lies between 1 and
    [beta / gamma]. *)
Lemma power_between (q e : R) :
  1 <= q -> 0 <= e -> e <= 1 -> 1 <= Rpower q e /\ Rpower q e <= q.
Proof.
  intros Hq He0 He1. split.
  - rewrite <- (Rpower_O q) by lra. apply Rle_Rpower; assumption.
  - rewrite <- (Rpower_1 q) at 2 by lra. apply Rle_Rpower; assumption.
Qed.


(** ** [psi_f] at real parameters *)

Lemma r_real_pos (b g : R) : 0 < b -> 0 < g -> 0 < r_real b g.
Proof. intros Hb Hg. unfold r_real. apply div_pos; lra. Qed.

Lemma psi_f_r_pos (b g : R) (n : string) :
  g <> 0 ->
  psi_f_r (mkMorseWavelet (Fin b) (Fin g) n) = Ok (Fin (r_real b g)).
Proof.
  intros Hg. unfold psi_f_r, py_truediv, r_real. simpl.
  rewrite (Reqb_false g 0) by assumption. reflexivity.
Qed.

Lemma INR_plus_pos (k : nat) (x : R) : 0 < x -> 0 < INR k + x.
Proof. intros Hx. pose proof (pos_INR k). lra. Qed.

Lemma psi_f_logA_pos (b g s : R) (n : string) (sc : scalar) (k : nat) :
  0 < b -> 0 < g -> 0 < s -> sval sc = Fin s ->
  psi_f_logA (mkMorseWavelet (Fin b) (Fin g) n) (Fin (r_real b g)) sc k
  = Ok (Fin (logA_real n b g s k)).
Proof.
  intros Hb Hg Hs Hsc.
  pose proof PI_RGT_0 as Hpi.
  pose proof (r_real_pos b g Hb Hg) as Hr.
  pose proof (INR_plus_pos k 1 Rlt_0_1) as Hk1.
  pose proof (INR_plus_pos k _ Hr) as Hkr.
  assert (Hq1 : 0 < PI * g / s) by (apply div_pos; [apply Rmult_lt_0_compat|]; lra).
  assert (Hq2 : 0 < 2 / s) by (apply div_pos; lra).
  assert (Hq3 : 0 < g / b) by (apply div_pos; lra).
  unfold psi_f_logA, logA_real. simpl.
  destruct (String.eqb n "energy").
  - destruct sc as [x | x]; simpl in Hsc; subst x; simpl;
      unfold py_truediv; decide_R; simpl; decide_R;
      unfold loggamma, of_nat; simpl; decide_R;
      apply f_equal, f_equal; unfold Rminus; reflexivity.
  - destruct sc as [x | x]; simpl in Hsc; subst x; simpl;
      unfold py_truediv; decide_R; simpl; decide_R; simpl; decide_R; reflexivity.
Qed.

Lemma eval_genlaguerre_0_fin (a x : R) :
  -1 < a -> eval_genlaguerre 0 (Fin a) (Fin x) = Fin 1.
Proof.
  intros Ha. unfold eval_genlaguerre, F64.le, F64.lt, F64.eqb.
  decide_R. reflexivity.
Qed.

Lemma eval_genlaguerre_nan (k : nat) (a : float64) :
  eval_genlaguerre k a NaN = NaN.
Proof.
  unfold eval_genlaguerre. destruct (F64.le a (Fin (-1))); [reflexivity |].
  rewrite orb_true_r. reflexivity.
Qed.

(** At a positive frequency the base wavelet is
    [scale * exp (logA - aw^gamma + beta * ln aw)]. *)
Lemma psi_f_at_pos (b g la s f : R) (n : string) :
  0 < b -> 0 < g -> 0 < s -> 0 < f ->
  psi_f_at (mkMorseWavelet (Fin b) (Fin g) n) (Fin (r_real b g)) (Fin la)
           (Fin s) 0 (Fin f)
  = Fin (morse_real b g la s f).
Proof.
  intros Hb Hg Hs Hf.
  pose proof PI_RGT_0 as Hpi.
  pose proof (r_real_pos b g Hb Hg) as Hr.
  assert (Hu : 0 < s * 2 * PI * f).
  { apply Rmult_lt_0_compat; [apply Rmult_lt_0_compat; lra | lra]. }
  set (r := r_real b g) in *. clearbody r.
  unfold psi_f_at, morse_real. simpl.
  unfold heaviside. decide_R. simpl. decide_R. simpl.
  rewrite eval_genlaguerre_0_fin by lra.
  simpl. apply f_equal. unfold Rminus. ring.
Qed.

(** At frequency zero the value is 0, whatever the finite [logA]. *)
Lemma psi_f_at_zero_0 (b g la s : R) (n : string) :
  0 < b -> 0 < g ->
  psi_f_at (mkMorseWavelet (Fin b) (Fin g) n) (Fin (r_real b g)) (Fin la)
           (Fin s) 0 (Fin 0)
  = Fin 0.
Proof.
  intros Hb Hg.
  pose proof (r_real_pos b g Hb Hg) as Hr.
  set (r := r_real b g) in *. clearbody r.
  unfold psi_f_at. simpl.
  replace (s * 2 * PI * 0) with 0 by ring.
  unfold heaviside. decide_R. simpl. decide_R. simpl.
  unfold inf_of_sign. decide_R. simpl.
  rewrite eval_genlaguerre_0_fin by lra.
  simpl. apply f_equal. ring.
Qed.

(** Below zero the Heaviside factor is 0 and [np.log] gives NaN, which the
    code replaces by 0; the Laguerre factor is then evaluated at
    [2 * aw ** gamma], a number only when [gamma] is an integer. *)
Lemma psi_f_at_neg (b g la s f : R) (n : string) :
  0 < b -> 0 < g -> 0 < s -> f < 0 ->
  psi_f_at (mkMorseWavelet (Fin b) (Fin g) n) (Fin (r_real b g)) (Fin la)
           (Fin s) 0 (Fin f)
  = if is_int g then Fin 0 else NaN.
Proof.
  intros Hb Hg Hs Hf.
  pose proof PI_RGT_0 as Hpi.
  pose proof (r_real_pos b g Hb Hg) as Hr.
  assert (Hu : s * 2 * PI * f < 0).
  { assert (0 < s * 2 * PI * (- f)).
    { apply Rmult_lt_0_compat; [apply Rmult_lt_0_compat; lra | lra]. }
    lra. }
  set (r := r_real b g) in *. clearbody r.
  unfold psi_f_at. simpl.
  unfold heaviside. decide_R. simpl. decide_R.
  destruct (is_int g).
  - destruct (Z.odd (Int_part g)); simpl;
      rewrite eval_genlaguerre_0_fin by lra; simpl; apply f_equal; ring.
  - simpl. rewrite eval_genlaguerre_nan. reflexivity.
Qed.

Lemma psi_f_at_nonfinite (b g la s : R) (n : string) (freq : float64) :
  0 < b -> 0 < g -> 0 < s -> isfinite freq = false ->
  let v := psi_f_at (mkMorseWavelet (Fin b) (Fin g) n) (Fin (r_real b g))
                    (Fin la) (Fin s) 0 freq in
  v = Fin 0 \/ v = NaN.
Proof.
  intros Hb Hg Hs Hfr.
  pose proof PI_RGT_0 as Hpi.
  pose proof (r_real_pos b g Hb Hg) as Hr.
  assert (Hc : 0 < s * 2 * PI).
  { apply Rmult_lt_0_compat; lra. }
  set (r := r_real b g) in *. clearbody r.
  destruct freq as [f | | |]; [discriminate | | |]; unfold psi_f_at; simpl.
  - left. unfold inf_of_sign. decide_R. simpl. decide_R. simpl.
    unfold inf_of_sign. decide_R. simpl.
    unfold eval_genlaguerre, F64.le, F64.lt, F64.eqb. decide_R. simpl.
    apply f_equal. ring.
  - left. unfold inf_of_sign. decide_R. simpl. decide_R.
    destruct (is_odd_int g); simpl; unfold inf_of_sign; decide_R; simpl;
      unfold eval_genlaguerre, F64.le, F64.lt, F64.eqb; decide_R; simpl;
      apply f_equal; ring.
  - right. decide_R. simpl. rewrite eval_genlaguerre_nan. reflexivity.
Qed.

(** ** The peak of the base wavelet *)

Lemma ln_le_minus_1 (x : R) : 0 < x -> ln x <= x - 1.
Proof.
  intros Hx. pose proof (exp_ineq1_le (ln x)) as H.
  rewrite exp_ln in H by assumption. lra.
Qed.

(** [c ln v - v] is greatest at [v = c]. *)
Lemma log_minus_id_max (c v : R) :
  0 < c -> 0 < v -> c * ln v - v <= c * ln c - c.
Proof.
  intros Hc Hv.
  assert (Hq : 0 < v / c) by (apply div_pos; assumption).
  pose proof (ln_le_minus_1 (v / c) Hq) as H.
  unfold Rdiv in H. rewrite ln_mult in H by (try apply Rinv_0_lt_compat; assumption).
  rewrite ln_Rinv in H by assumption.
  assert (H' : c * (ln v + - ln c) <= c * (v * / c - 1)).
  { apply Rmult_le_compat_l; lra. }
  replace (c * (v * / c - 1)) with (v - c) in H' by (field; lra).
  lra.
Qed.

Lemma central_aw (b g s : R) :
  s <> 0 ->
  s * 2 * PI * (Rpower (b / g) (1 / g) / s * (1 / 2) / PI) = Rpower (b / g) (1 / g).
Proof. intros Hs. pose proof PI_neq_0. field. split; assumption. Qed.

Lemma morse_real_central (b g la s : R) :
  0 < b -> 0 < g -> s <> 0 ->
  morse_real b g la s (Rpower (b / g) (1 / g) / s * (1 / 2) / PI)
  = peak_real b g la s.
Proof.
  intros Hb Hg Hs. unfold morse_real, peak_real.
  pose proof (div_pos b g Hb Hg) as Hc.
  rewrite central_aw by assumption.
  rewrite Rpower_mult, ln_Rpower.
  replace (1 / g * g) with 1 by (field; lra).
  rewrite Rpower_1 by assumption.
  apply f_equal, f_equal. field. lra.
Qed.

Lemma morse_real_le_peak (b g la s f : R) :
  0 < b -> 0 < g -> 0 < s -> 0 < f ->
  morse_real b g la s f <= peak_real b g la s.
Proof.
  intros Hb Hg Hs Hf. unfold morse_real, peak_real.
  pose proof PI_RGT_0 as Hpi.
  pose proof (div_pos b g Hb Hg) as Hc.
  assert (Hu : 0 < s * 2 * PI * f).
  { apply Rmult_lt_0_compat; [apply Rmult_lt_0_compat; lra | lra]. }
  set (u := s * 2 * PI * f) in *.
  apply Rmult_le_compat_l; [lra |].
  assert (Hle : la - Rpower u g + b * ln u <= la - b / g + b / g * ln (b / g)).
  { pose proof (log_minus_id_max (b / g) (Rpower u g) Hc (Rpower_pos u g)) as H.
    rewrite ln_Rpower in H.
    replace (b / g * (g * ln u)) with (b * ln u) in H by (field; lra).
    lra. }
  destruct Hle as [Hlt | Heq].
  - left. apply exp_increasing. assumption.
  - right. rewrite Heq. reflexivity.
Qed.

Lemma morse_real_pos (b g la s f : R) : 0 < s -> 0 < morse_real b g la s f.
Proof.
  intros Hs. unfold morse_real. apply Rmult_lt_0_compat; [assumption | apply exp_pos].
Qed.

Lemma peak_real_pos (b g la s : R) : 0 < s -> 0 < peak_real b g la s.
Proof.
  intros Hs. unfold peak_real. apply Rmult_lt_0_compat; [assumption | apply exp_pos].
Qed.

(** With the analytic norm the peak is 2. *)
Lemma peak_real_analytic (b g s : R) (k : nat) :
  0 < b -> 0 < g -> 0 < s ->
  peak_real b g (logA_real "analytic" b g s k) s = 2.
Proof.
  intros Hb Hg Hs. unfold peak_real, logA_real. simpl.
  replace (g / b) with (/ (b / g)) by (field; lra).
  rewrite ln_Rinv by (apply div_pos; assumption).
  replace (ln (2 / s) + b / g * (1 + - ln (b / g)) - b / g + b / g * ln (b / g))
    with (ln (2 / s)) by ring.
  rewrite exp_ln by (apply div_pos; lra).
  field. lra.
Qed.

(** ** [psi_f] at a valid spec and a positive scale *)

Lemma psi_f_pos_params (b g s : R) (n : string) (sc : scalar) (k : nat)
    (freqs : operand) :
  0 < b -> 0 < g -> 0 < s -> sval sc = Fin s ->
  psi_f (mkMorseWavelet (Fin b) (Fin g) n) freqs sc k
  = Ok (operand_map
          (psi_f_at (mkMorseWavelet (Fin b) (Fin g) n) (Fin (r_real b g))
                    (Fin (logA_real n b g s k)) (Fin s) k) freqs).
Proof.
  intros Hb Hg Hs Hsc. unfold psi_f.
  rewrite psi_f_r_pos by lra. simpl.
  rewrite (psi_f_logA_pos b g s n sc k) by assumption. simpl.
  rewrite Hsc. reflexivity.
Qed.

(** ** Which calls raise *)

Lemma init_inv (b g : float64) (n : string) (w : MorseWavelet) :
  init b g n = Ok w ->
  w = mkMorseWavelet b g n /\
  F64.le b (Fin 0) = false /\ F64.le g (Fin 0) = false /\
  (n = "analytic"%string \/ n = "energy"%string).
Proof.
  unfold init. intros H.
  destruct (F64.le b (Fin 0) || F64.le g (Fin 0)) eqn:E; [discriminate |].
  apply orb_false_iff in E. destruct E as [Eb Eg].
  destruct (String.eqb n "analytic") eqn:Ea.
  - simpl in H. apply String.eqb_eq in Ea. inversion H. auto.
  - destruct (String.eqb n "energy") eqn:Ee; simpl in H; [| discriminate].
    apply String.eqb_eq in Ee. inversion H. auto.
Qed.

Lemma not_le_0_cases (x : float64) :
  F64.le x (Fin 0) = false ->
  (exists a, x = Fin a /\ 0 < a) \/ x = PInf \/ x = NaN.
Proof.
  destruct x as [a | | |]; intros H; auto.
  - left. exists a. split; [reflexivity |].
    destruct (Rle_dec a 0) as [Hle | Hnle]; [| lra].
    apply le_Fin_0 in Hle. congruence.
  - discriminate.
Qed.

Lemma py_truediv_ok (x y : float64) :
  y <> Fin 0 -> py_truediv x y = Ok (F64.div x y).
Proof.
  intros Hy. unfold py_truediv. destruct y as [a | | |]; try reflexivity.
  rewrite Reqb_false; [reflexivity |]. intros ->. apply Hy. reflexivity.
Qed.

Lemma not_le_0_nonzero (x : float64) : F64.le x (Fin 0) = false -> x <> Fin 0.
Proof.
  intros H ->. rewrite (proj2 (le_Fin_0 0)) in H by lra. discriminate.
Qed.

Lemma truediv_ok (a : float64) (sc : scalar) :
  sc <> PyFloat (Fin 0) -> truediv a sc = Ok (F64.div a (sval sc)).
Proof.
  intros Hsc. destruct sc as [y | y]; simpl; [| reflexivity].
  apply py_truediv_ok. intros ->. apply Hsc. reflexivity.
Qed.

Lemma truediv_py_zero (a : float64) :
  truediv a (PyFloat (Fin 0)) = Raise ZeroDivisionError.
Proof. simpl. unfold py_truediv. rewrite Reqb_true by reflexivity. reflexivity. Qed.

(** The base of the power in [central_freq] is never negative, and its
    exponent never negative, for an object built by the constructor: the
    power is not a [complex], and it does not raise [ZeroDivisionError]. *)
Lemma init_base_not_negative (b g : float64) (n : string) (w : MorseWavelet) :
  init b g n = Ok w ->
  F64.lt (F64.div (beta w) (gamma w)) (Fin 0) = false /\
  F64.lt (F64.div (Fin 1) (gamma w)) (Fin 0) = false.
Proof.
  intros H. apply init_inv in H. destruct H as (-> & Hb & Hg & _). simpl.
  apply not_le_0_cases in Hb, Hg.
  destruct Hb as [(x & -> & Hx) | [-> | ->]];
    destruct Hg as [(y & -> & Hy) | [-> | ->]]; simpl; decide_R;
    unfold F64.lt;
    try (pose proof (div_pos 1 y Rlt_0_1 Hy));
    try (pose proof (div_pos x y Hx Hy));
    split; first [reflexivity | apply Rltb_false; lra].
Qed.

(** The only error of Python's [**] with an exponent that is not negative
    is [OverflowError]. *)
Lemma py_pow_raises (x y : float64) (e : exn) :
  F64.lt y (Fin 0) = false -> py_pow x y = Raise e -> e = OverflowError.
Proof.
  intros Hy. unfold py_pow. rewrite Hy, andb_false_r.
  destruct (F64.pow x y) as [v | | |]; try discriminate.
  destruct (Rltb (Rabs v) float_overflow); [discriminate |].
  intros H. inversion H. reflexivity.
Qed.

(** On an object built by the constructor the power of line 81,
    [(beta / gamma) ** (1 / gamma)], either returns or raises
    [OverflowError]. *)
Lemma central_freq_base_raises (b g : float64) (n : string) (w : MorseWavelet)
    (e : exn) :
  init b g n = Ok w -> central_freq_base w = Raise e -> e = OverflowError.
Proof.
  intros H. pose proof (init_base_not_negative b g n w H) as [_ He].
  apply init_inv in H. destruct H as (-> & Hb & Hg & _).
  unfold central_freq_base. cbn [beta gamma] in *.
  rewrite !py_truediv_ok by (apply not_le_0_nonzero; assumption). cbn [bind].
  apply py_pow_raises. assumption.
Qed.

Lemma psi_f_logA_returns (b g : float64) (n : string) (w : MorseWavelet)
    (r : float64) (sc : scalar) (k : nat) :
  init b g n = Ok w -> sc <> PyFloat (Fin 0) -> returns (psi_f_logA w r sc k).
Proof.
  intros H Hsc. apply init_inv in H. destruct H as (-> & Hb & Hg & _).
  unfold psi_f_logA. simpl.
  destruct (String.eqb n "energy").
  - rewrite truediv_ok by assumption. simpl. eexists. reflexivity.
  - rewrite truediv_ok by assumption. simpl.
    rewrite !py_truediv_ok by (apply not_le_0_nonzero; assumption). simpl.
    eexists. reflexivity.
Qed.

Lemma psi_f_logA_py_zero (w : MorseWavelet) (r : float64) (k : nat) :
  psi_f_logA w r (PyFloat (Fin 0)) k = Raise ZeroDivisionError.
Proof.
  unfold psi_f_logA. rewrite !truediv_py_zero.
  destruct (String.eqb (norm w) "energy"); reflexivity.
Qed.

(** [psi_f] on an object built by the constructor: it raises exactly when
    the scale is the Python number 0, and then [ZeroDivisionError];
    otherwise it returns an operand of the shape of [freqs]. *)
Lemma psi_f_returns (b g : float64) (n : string) (w : MorseWavelet)
    (freqs : operand) (sc : scalar) (k : nat) :
  init b g n = Ok w -> sc <> PyFloat (Fin 0) ->
  exists r logA,
    psi_f w freqs sc k = Ok (operand_map (psi_f_at w r logA (sval sc) k) freqs).
Proof.
  intros H Hsc.
  pose proof (init_inv _ _ _ _ H) as (Hw & Hb & Hg & _).
  unfold psi_f, psi_f_r.
  rewrite py_truediv_ok by (subst w; apply not_le_0_nonzero; assumption).
  cbn [bind].
  match goal with
  | |- context [psi_f_logA w ?r sc k] =>
      destruct (psi_f_logA_returns b g n w r sc k H Hsc) as [la Hla];
      exists r, la
  end.
  rewrite Hla. reflexivity.
Qed.

Lemma psi_f_py_zero (b g : float64) (n : string) (w : MorseWavelet)
    (freqs : operand) (k : nat) :
  init b g n = Ok w ->
  psi_f w freqs (PyFloat (Fin 0)) k = Raise ZeroDivisionError.
Proof.
  intros H. pose proof (init_inv _ _ _ _ H) as (Hw & Hb & Hg & _).
  unfold psi_f, psi_f_r.
  rewrite py_truediv_ok by (subst w; apply not_le_0_nonzero; assumption).
  cbn [bind]. rewrite psi_f_logA_py_zero. reflexivity.
Qed.

(** [central_freq] evaluates the power first and divides by the scale
    next: it returns when the power does and the scale is not the Python
    number 0. *)
Lemma central_freq_returns (w : MorseWavelet) (sc : scalar) :
  returns (central_freq_base w) -> sc <> PyFloat (Fin 0) ->
  returns (central_freq w sc).
Proof.
  intros [p Hp] Hsc.
  unfold central_freq. rewrite Hp. simpl.
  rewrite truediv_ok by assumption. simpl. eexists. reflexivity.
Qed.

Lemma central_freq_py_zero (w : MorseWavelet) :
  returns (central_freq_base w) ->
  central_freq w (PyFloat (Fin 0)) = Raise ZeroDivisionError.
Proof.
  intros [p Hp].
  unfold central_freq. rewrite Hp. simpl.
  unfold py_truediv. rewrite Reqb_true by reflexivity. reflexivity.
Qed.

Lemma central_freq_base_raise (w : MorseWavelet) (sc : scalar) (e : exn) :
  central_freq_base w = Raise e -> central_freq w sc = Raise e.
Proof. intros H. unfold central_freq. rewrite H. reflexivity. Qed.

Lemma central_freq_raises (w : MorseWavelet) (sc : scalar) (e : exn) :
  central_freq w sc = Raise e ->
  central_freq_base w = Raise e \/
  (returns (central_freq_base w) /\ sc = PyFloat (Fin 0) /\ e = ZeroDivisionError).
Proof.
  unfold central_freq.
  destruct (central_freq_base w) as [p | e'] eqn:Hp; cbn [bind].
  - intros H. right. split; [eexists; reflexivity |].
    destruct sc as [y | y]; cbn [truediv bind] in H; [| discriminate].
    unfold py_truediv in H.
    destruct y as [a | | |]; try discriminate.
    destruct (Req_dec_T a 0) as [-> | Ha].
    + rewrite Reqb_true in H by reflexivity. inversion H. auto.
    + rewrite Reqb_false in H by assumption. discriminate.
  - intros H. inversion H. left. reflexivity.
Qed.

(** C7 (amended). On an object built by the constructor, [psi_f] (with
    NumPy frequencies, an array or a [float64] scalar, and any order [k])
    raises nothing at any scale other than the Python number 0, where it
    raises [ZeroDivisionError].  [central_freq] raises [OverflowError], at
    every scale, when the power [(beta / gamma) ** (1 / gamma)] overflows;
    when the power returns, it raises nothing at any scale other than the
    Python number 0, and [ZeroDivisionError] there.  No other error
    occurs. *)
Theorem evaluate_errors (b g : float64) (n : string)
    (w : MorseWavelet) (freqs : operand) (k : nat) :
  init b g n = Ok w ->
  (forall sc, sc <> PyFloat (Fin 0) -> returns (psi_f w freqs sc k)) /\
  psi_f w freqs (PyFloat (Fin 0)) k = Raise ZeroDivisionError /\
  (forall sc e, central_freq w sc = Raise e ->
     (e = OverflowError /\ central_freq_base w = Raise OverflowError) \/
     (e = ZeroDivisionError /\ sc = PyFloat (Fin 0) /\
      returns (central_freq_base w))) /\
  (central_freq_base w = Raise OverflowError ->
   forall sc, central_freq w sc = Raise OverflowError) /\
  (returns (central_freq_base w) ->
   (forall sc, sc <> PyFloat (Fin 0) -> returns (central_freq w sc)) /\
   central_freq w (PyFloat (Fin 0)) = Raise ZeroDivisionError).
Proof.
  intros H. split; [| split; [| split; [| split]]].
  - intros sc Hsc.
    destruct (psi_f_returns b g n w freqs sc k H Hsc) as (r & la & Hr).
    eexists. exact Hr.
  - apply (psi_f_py_zero b g n); assumption.
  - intros sc e He. apply central_freq_raises in He.
    destruct He as [He | (Hr & Hsc & He)].
    + left. pose proof (central_freq_base_raises b g n w e H He). subst e. auto.
    + right. auto.
  - intros Ho sc. apply central_freq_base_raise. assumption.
  - intros Hr. split.
    + intros sc Hsc. apply central_freq_returns; assumption.
    + apply central_freq_py_zero. assumption.
Qed.

(** ** [cwt]: the shapes *)

Lemma mapM_ok {A B : Type} (f : A -> result B) (P : B -> Prop) (l : list A) :
  (forall a, In a l -> exists b, f a = Ok b /\ P b) ->
  exists bs, mapM f l = Ok bs /\ List.length bs = List.length l /\ Forall P bs.
Proof.
  induction l as [| a l IH]; intros H.
  - exists []. simpl. auto.
  - destruct (H a (or_introl eq_refl)) as (b & Hb & HP).
    destruct IH as (bs & Hbs & Hlen & HF).
    { intros a' Ha'. apply H. right. assumption. }
    exists (b :: bs). simpl. rewrite Hb. simpl. rewrite Hbs. simpl.
    repeat split; [congruence | constructor; assumption].
Qed.

Lemma next_fast_len_ge (n : nat) : (n <= next_fast_len n)%nat.
Proof.
  unfold next_fast_len.
  destruct (find smooth11 (seq n (S n))) as [m |] eqn:E; [| lia].
  apply find_some in E. destruct E as [E _]. apply in_seq in E. lia.
Qed.

Lemma resize_length (x : list complex) (n : nat) : List.length (resize x n) = n.
Proof.
  unfold resize. rewrite length_app, length_firstn, repeat_length. lia.
Qed.

Lemma dft_length (sign : R) (x : list complex) :
  List.length (dft sign x) = List.length x.
Proof. unfold dft. rewrite length_map, length_seq. reflexivity. Qed.

Lemma fft_ok (x : list complex) (n : nat) :
  n <> O -> exists y, fft x n = Ok y /\ List.length y = n.
Proof.
  intros Hn. unfold fft. apply Nat.eqb_neq in Hn. rewrite Hn.
  eexists. split; [reflexivity |]. rewrite dft_length. apply resize_length.
Qed.

Lemma ifft_ok (x : list complex) (n : nat) :
  n <> O -> exists y, ifft x n = Ok y /\ List.length y = n.
Proof.
  intros Hn. unfold ifft. apply Nat.eqb_neq in Hn. rewrite Hn.
  eexists. split; [reflexivity |].
  rewrite length_map, dft_length. apply resize_length.
Qed.

Lemma scalar_scale_nonzero (n : nat) (d : scalar) :
  n <> O -> d <> PyFloat (Fin 0) -> scalar_scale n d <> PyFloat (Fin 0).
Proof.
  intros Hn Hd.
  assert (HL : 0 < INR n) by (apply lt_0_INR; lia).
  destruct d as [y | y]; simpl; [| discriminate].
  destruct y as [a | | |]; simpl; unfold inf_of_sign; decide_R; try discriminate.
  intros E. inversion E as [E']. apply Hd.
  apply Rmult_integral in E'. destruct E' as [E' | E']; [lra | subst a; reflexivity].
Qed.

Lemma fftfreq_bins (n : nat) :
  (Z.to_nat ((Z.of_nat n - 1) / 2 + 1) + n / 2 = n)%nat.
Proof.
  pose proof (Nat.div_mod_eq n 2) as Hn.
  pose proof (Nat.mod_upper_bound n 2 ltac:(lia)) as Hm.
  pose proof (Z.div_mod (Z.of_nat n - 1) 2 ltac:(lia)) as Hz.
  pose proof (Z.mod_pos_bound (Z.of_nat n - 1) 2 ltac:(lia)) as Hzm.
  lia.
Qed.

Lemma fftfreq_ok (n : nat) (d : scalar) :
  n <> O -> d <> PyFloat (Fin 0) ->
  exists fs, fftfreq n d = Ok fs /\ List.length fs = n.
Proof.
  intros Hn Hd. unfold fftfreq.
  rewrite truediv_ok by (apply scalar_scale_nonzero; assumption).
  cbn [bind]. eexists. split; [reflexivity |].
  rewrite length_map, length_app, !length_map, !length_seq.
  apply fftfreq_bins.
Qed.

Lemma mul_ifft_ok (f_sig : list complex) (psi : list (list float64)) (n : nat) :
  psi <> [] -> n <> O ->
  exists rows, mul_ifft f_sig psi n = Ok (Coeffs2 rows) /\
               List.length rows = List.length psi /\
               Forall (fun r => List.length r = n) rows.
Proof.
  intros Hpsi Hn. destruct psi as [| row psi']; [contradiction |].
  unfold mul_ifft.
  destruct (mapM_ok
              (fun row0 => ifft (map (fun cp => cmul (fst cp) (of_real (snd cp)))
                                     (combine f_sig row0)) n)
              (fun r => List.length r = n) (row :: psi')) as (rows & Hrows & Hlen & HF).
  { intros a _. apply ifft_ok. assumption. }
  rewrite Hrows. cbn [bind]. exists rows. auto.
Qed.

(** With a non-empty signal, a non-empty array of scales (of any values)
    and a sampling period other than the Python number 0, [cwt] reaches its
    last step, line 115, with a coefficient array of the shape of its
    arguments: what is left is [central_freq(scales)]. *)
Lemma cwt_reaches_central_freq (b g : float64) (n : string) (w : MorseWavelet)
    (signal : list complex) (scales : list float64) (dt : scalar) :
  init b g n = Ok w ->
  signal <> [] -> scales <> [] -> dt <> PyFloat (Fin 0) ->
  exists rows,
    List.length rows = List.length scales /\
    Forall (fun row => List.length row = List.length signal) rows /\
    cwt w signal scales dt
    = (freqs <- central_freq_nd w scales ;; Ok (freqs, Coeffs2 rows)).
Proof.
  intros H Hsig Hsc Hdt.
  assert (Hn : List.length signal <> O) by (destruct signal; [contradiction | discriminate]).
  pose proof (next_fast_len_ge (List.length signal)) as HL.
  assert (HL0 : next_fast_len (List.length signal) <> O) by lia.
  unfold cwt.
  destruct (fftfreq_ok _ dt HL0 Hdt) as (fs & Hfs & Hfslen). rewrite Hfs. cbn [bind].
  destruct (fft_ok signal _ HL0) as (f_sig & Hf & Hflen). rewrite Hf. cbn [bind].
  destruct (mapM_ok
              (fun scale =>
                 o <- psi_f w (Array fs) (NpFloat scale) 0 ;;
                 match o with
                 | Array row => Ok row
                 | Scalar x => Ok [x]
                 end)
              (fun _ => True) scales) as (psi & Hpsi & Hpsilen & _).
  { intros s _.
    destruct (psi_f_returns b g n w (Array fs) (NpFloat s) 0 H ltac:(discriminate))
      as (r & la & Hr).
    rewrite Hr. simpl. eauto. }
  rewrite Hpsi. cbn [bind].
  assert (Hpsi0 : psi <> []).
  { destruct psi; [destruct scales; [contradiction | discriminate] | discriminate]. }
  destruct (mul_ifft_ok f_sig psi (List.length signal) Hpsi0 Hn)
    as (rows & HW & Hrows & HF).
  rewrite HW. cbn [bind].
  exists rows. split; [congruence |]. split; [assumption | reflexivity].
Qed.

(** When moreover the power of [central_freq] returns, [cwt] returns, and
    the shapes are those of its arguments. *)
Lemma cwt_returns (b g : float64) (n : string) (w : MorseWavelet)
    (signal : list complex) (scales : list float64) (dt : scalar) :
  init b g n = Ok w -> returns (central_freq_base w) ->
  signal <> [] -> scales <> [] -> dt <> PyFloat (Fin 0) ->
  exists freqs W,
    cwt w signal scales dt = Ok (freqs, W) /\
    has_shape W (List.length scales) (List.length signal) /\
    List.length freqs = List.length scales.
Proof.
  intros H [p Hp] Hsig Hsc Hdt.
  destruct (cwt_reaches_central_freq b g n w signal scales dt H Hsig Hsc Hdt)
    as (rows & Hrows & HF & Hcwt).
  rewrite Hcwt. unfold central_freq_nd. rewrite Hp. cbn [bind].
  eexists. exists (Coeffs2 rows). split; [reflexivity |].
  split; [| apply length_map]. simpl. split; assumption.
Qed.

(** And when the power raises, so does [cwt], after all the transforms. *)
Lemma cwt_raises (b g : float64) (n : string) (w : MorseWavelet)
    (signal : list complex) (scales : list float64) (dt : scalar) (e : exn) :
  init b g n = Ok w ->
  signal <> [] -> scales <> [] -> dt <> PyFloat (Fin 0) ->
  (cwt w signal scales dt = Raise e <-> central_freq_base w = Raise e).
Proof.
  intros H Hsig Hsc Hdt.
  destruct (cwt_reaches_central_freq b g n w signal scales dt H Hsig Hsc Hdt)
    as (rows & Hrows & HF & Hcwt).
  rewrite Hcwt. unfold central_freq_nd.
  destruct (central_freq_base w) as [p | e']; cbn [bind]; split; intros E;
    first [discriminate E | inversion E; reflexivity].
Qed.

(** C8 (amended). For an object built by the constructor whose power
    [(beta / gamma) ** (1 / gamma)] does not overflow, a non-empty signal
    of length N, a non-empty array of S positive scales and a sampling
    period [dt] other than the Python number 0 (the default is 1), [cwt]
    returns a coefficient array of S rows of length N and S central
    frequencies. *)
Theorem cwt_shape (b g : float64) (n : string) (w : MorseWavelet)
    (signal : list complex) (scales : list float64) (dt : scalar) :
  init b g n = Ok w ->
  returns (central_freq_base w) ->
  signal <> [] -> scales <> [] ->
  Forall (fun s => F64.gt s (Fin 0) = true) scales ->
  dt <> PyFloat (Fin 0) ->
  exists freqs rows,
    cwt w signal scales dt = Ok (freqs, Coeffs2 rows) /\
    List.length rows = List.length scales /\
    Forall (fun row => List.length row = List.length signal) rows /\
    List.length freqs = List.length scales.
Proof.
  intros H Hp Hsig Hsc _ Hdt.
  destruct (cwt_returns b g n w signal scales dt H Hp Hsig Hsc Hdt)
    as (freqs & W & HW & Hshape & Hlen).
  destruct W as [row | rows]; [contradiction |].
  destruct Hshape as [Hr HF].
  exists freqs, rows. auto.
Qed.

(** C6 (amended). The scale is not validated.  On an object built by the
    constructor, [psi_f] (with NumPy frequencies) raises nothing at a
    negative scale; at the scale 0 it raises [ZeroDivisionError], not
    [ValueError], when the scale is a Python number and raises nothing
    when it is a NumPy scalar.  [cwt], whose scales are array elements,
    rejects no scale: for every non-empty array of scales, non-positive
    ones included (with a non-empty signal and [dt] other than the Python
    number 0), it returns when the power [(beta / gamma) ** (1 / gamma)]
    of [central_freq] returns, and the only error it raises is the
    [OverflowError] of that power. *)
Theorem scale_not_validated (b g : float64) (n : string) (w : MorseWavelet)
    (freqs : operand) (k : nat) (signal : list complex)
    (scales : list float64) (dt : scalar) :
  init b g n = Ok w ->
  (forall sc, F64.lt (sval sc) (Fin 0) = true -> returns (psi_f w freqs sc k)) /\
  psi_f w freqs (PyFloat (Fin 0)) k = Raise ZeroDivisionError /\
  returns (psi_f w freqs (NpFloat (Fin 0)) k) /\
  (signal <> [] -> scales <> [] -> dt <> PyFloat (Fin 0) ->
   (returns (central_freq_base w) -> returns (cwt w signal scales dt)) /\
   (forall e, cwt w signal scales dt = Raise e -> e = OverflowError)).
Proof.
  intros H. split; [| split; [| split]].
  - intros sc Hsc.
    assert (Hne : sc <> PyFloat (Fin 0)).
    { intros ->. simpl in Hsc. unfold F64.lt in Hsc.
      rewrite Rltb_false in Hsc by lra. discriminate. }
    destruct (psi_f_returns b g n w freqs sc k H Hne) as (r & la & Hr).
    eexists. exact Hr.
  - apply (psi_f_py_zero b g n); assumption.
  - destruct (psi_f_returns b g n w freqs (NpFloat (Fin 0)) k H ltac:(discriminate))
      as (r & la & Hr).
    eexists. exact Hr.
  - intros Hsig Hsc Hdt. split.
    + intros Hp.
      destruct (cwt_returns b g n w signal scales dt H Hp Hsig Hsc Hdt)
        as (fr & W & HW & _).
      eexists. exact HW.
    + intros e He.
      apply (cwt_raises b g n w signal scales dt e H Hsig Hsc Hdt) in He.
      apply (central_freq_base_raises b g n w e H He).
Qed.

(** ** Frequencies at and below zero *)

Lemma is_int_seven_halves : is_int (7 / 2) = false.
Proof.
  unfold is_int. apply Reqb_false.
  destruct (Int_part_frac_part_spec (7 / 2) 3 (1 / 2)) as [_ Hf]; [lra | lra |].
  rewrite <- Hf. lra.
Qed.

(** Below zero, with a [gamma] that is not an integer, [aw ** gamma] is
    NaN: the Laguerre factor is NaN for every order, and so is the product
    with the cleaned [wav0]. *)
Lemma psi_f_at_neg_frac (b g la s f : R) (n : string) (r : float64) (k : nat) :
  0 < g -> 0 < s -> f < 0 -> is_int g = false ->
  psi_f_at (mkMorseWavelet (Fin b) (Fin g) n) r (Fin la) (Fin s) k (Fin f) = NaN.
Proof.
  intros Hg Hs Hf Hint.
  pose proof PI_RGT_0 as Hpi.
  assert (Hu : s * 2 * PI * f < 0).
  { assert (0 < s * 2 * PI * (- f)).
    { apply Rmult_lt_0_compat; [apply Rmult_lt_0_compat; lra | lra]. }
    lra. }
  unfold psi_f_at. simpl.
  unfold heaviside. decide_R. rewrite Hint. simpl.
  rewrite eval_genlaguerre_nan. reflexivity.
Qed.

(** C3 (the code at the failing input). With [beta = 8], [gamma = 3.5],
    the analytic norm, scale 1 and order 1, [psi_f] at the frequency -1
    returns NaN, not 0. *)
Theorem psi_f_negative_frequency_nan :
  psi_f (mkMorseWavelet (Fin 8) (Fin (7 / 2)) "analytic")
        (Array [Fin (-1)]) (PyFloat (Fin 1)) 1
  = Ok (Array [NaN]).
Proof.
  rewrite (psi_f_pos_params 8 (7 / 2) 1 "analytic" (PyFloat (Fin 1)) 1)
    by (lra || reflexivity).
  simpl. rewrite psi_f_at_neg_frac by (lra || apply is_int_seven_halves).
  reflexivity.
Qed.

(** C10 (the code at the failing input). With [beta = 8], [gamma = 3.5],
    the analytic norm, scale 1 and order 0, the value of [psi_f] at the
    frequency -1 is NaN, not a non-negative number. *)
Theorem psi_f_base_negative_frequency_nan :
  psi_f (mkMorseWavelet (Fin 8) (Fin (7 / 2)) "analytic")
        (Array [Fin (-1)]) (PyFloat (Fin 1)) 0
  = Ok (Array [NaN]).
Proof.
  rewrite (psi_f_pos_params 8 (7 / 2) 1 "analytic" (PyFloat (Fin 1)) 0)
    by (lra || reflexivity).
  simpl. rewrite psi_f_at_neg_frac by (lra || apply is_int_seven_halves).
  reflexivity.
Qed.

(** What does hold of the base wavelet: at every frequency [f >= 0] the
    value is a non-negative number, positive exactly when [f > 0]; below
    zero it is 0 when [gamma] is an integer. *)
Lemma psi_f_base_nonneg_freq (b g s f : R) (n : string) :
  0 < b -> 0 < g -> 0 < s -> 0 <= f ->
  exists y,
    psi_f (mkMorseWavelet (Fin b) (Fin g) n) (Scalar (Fin f)) (PyFloat (Fin s)) 0
    = Ok (Scalar (Fin y)) /\ 0 <= y /\ (0 < y <-> 0 < f).
Proof.
  intros Hb Hg Hs Hf.
  rewrite (psi_f_pos_params b g s n (PyFloat (Fin s)) 0) by (assumption || reflexivity).
  simpl. destruct Hf as [Hf | <-].
  - rewrite psi_f_at_pos by assumption. eexists. split; [reflexivity |].
    pose proof (morse_real_pos b g (logA_real n b g s 0) s f Hs). split; [lra | tauto].
  - rewrite psi_f_at_zero_0 by assumption. exists 0. split; [reflexivity |]. lra.
Qed.

Lemma psi_f_base_neg_freq_int_gamma (b g s f : R) (n : string) :
  0 < b -> 0 < g -> 0 < s -> f < 0 -> is_int g = true ->
  psi_f (mkMorseWavelet (Fin b) (Fin g) n) (Scalar (Fin f)) (PyFloat (Fin s)) 0
  = Ok (Scalar (Fin 0)).
Proof.
  intros Hb Hg Hs Hf Hint.
  rewrite (psi_f_pos_params b g s n (PyFloat (Fin s)) 0) by (assumption || reflexivity).
  simpl. rewrite psi_f_at_neg by assumption. rewrite Hint. reflexivity.
Qed.

(** The Laguerre factor of finite arguments is a number. *)
Lemma genlaguerre_binom_fin (n : nat) (a : R) :
  exists y, genlaguerre_binom n (Fin a) = Fin y.
Proof.
  induction n as [| m [y IH]].
  - exists 1. reflexivity.
  - cbn [genlaguerre_binom]. rewrite IH. unfold of_nat.
    assert (HS : INR (S m) <> 0) by (apply not_0_INR; lia).
    cbn [F64.add F64.div]. rewrite (Reqb_false _ 0 HS). cbn [F64.mul].
    eexists. reflexivity.
Qed.

Lemma genlaguerre_loop_fin (a x : R) (steps : nat) :
  -1 < a ->
  forall kk d p, exists y,
    genlaguerre_loop steps kk (Fin a) (Fin x) (Fin d) (Fin p) = Fin y.
Proof.
  intros Ha. induction steps as [| m IH]; intros kk d p.
  - exists p. reflexivity.
  - cbn [genlaguerre_loop]. unfold of_nat. cbn [F64.add F64.neg].
    assert (Hden : INR (kk + 1) + a + 1 <> 0).
    { pose proof (pos_INR (kk + 1)). lra. }
    cbn [F64.div]. rewrite (Reqb_false _ 0 Hden). cbn [F64.mul F64.add].
    apply IH.
Qed.

Lemma eval_genlaguerre_fin (k : nat) (a x : R) :
  -1 < a -> exists y, eval_genlaguerre k (Fin a) (Fin x) = Fin y.
Proof.
  intros Ha. unfold eval_genlaguerre, F64.le, F64.lt, F64.eqb.
  decide_R. cbn [orb isnan].
  destruct k as [| [| m]].
  - eexists. reflexivity.
  - eexists. reflexivity.
  - cbn [F64.add F64.neg F64.div].
    rewrite (Reqb_false (a + 1) 0) by lra. cbn [F64.add].
    destruct (genlaguerre_binom_fin (S (S m)) a) as [c Hc]. rewrite Hc.
    destruct (genlaguerre_loop_fin a x (S m) Ha 0 (- x / (a + 1)) (- x / (a + 1) + 1))
      as [y Hy].
    rewrite Hy. eexists. reflexivity.
Qed.

(** At frequency zero [psi_f] is 0 for every order.  The exponent is
    [-inf] there, not NaN: [exp] gives 0. *)
Lemma psi_f_at_zero (b g la s : R) (n : string) (k : nat) :
  0 < b -> 0 < g ->
  psi_f_at (mkMorseWavelet (Fin b) (Fin g) n) (Fin (r_real b g)) (Fin la)
           (Fin s) k (Fin 0)
  = Fin 0.
Proof.
  intros Hb Hg.
  pose proof (r_real_pos b g Hb Hg) as Hr.
  set (r := r_real b g) in *. clearbody r.
  unfold psi_f_at. simpl.
  replace (s * 2 * PI * 0) with 0 by ring.
  unfold heaviside. decide_R. simpl. decide_R. simpl.
  unfold inf_of_sign. decide_R. simpl.

  match goal with
  | |- context [eval_genlaguerre k (Fin ?a) (Fin ?x)] =>
      destruct (eval_genlaguerre_fin k a x ltac:(lra)) as [y Hy]; rewrite Hy
  end.
  simpl. apply f_equal. ring.
Qed.

Lemma psi_f_zero_freq (b g s : R) (n : string) (sc : scalar) (k : nat) :
  0 < b -> 0 < g -> 0 < s -> sval sc = Fin s ->
  psi_f (mkMorseWavelet (Fin b) (Fin g) n) (Array [Fin 0]) sc k
  = Ok (Array [Fin 0]).
Proof.
  intros Hb Hg Hs Hsc.
  rewrite (psi_f_pos_params b g s n sc k) by assumption.
  simpl. rewrite psi_f_at_zero by assumption. reflexivity.
Qed.

(** Below zero [psi_f] is 0 for every order when [gamma] is an integer. *)
Lemma psi_f_at_neg_int (b g la s f : R) (n : string) (k : nat) :
  0 < b -> 0 < g -> 0 < s -> f < 0 -> is_int g = true ->
  psi_f_at (mkMorseWavelet (Fin b) (Fin g) n) (Fin (r_real b g)) (Fin la)
           (Fin s) k (Fin f)
  = Fin 0.
Proof.
  intros Hb Hg Hs Hf Hint.
  pose proof PI_RGT_0 as Hpi.
  pose proof (r_real_pos b g Hb Hg) as Hr.
  assert (Hu : s * 2 * PI * f < 0).
  { assert (0 < s * 2 * PI * (- f)).
    { apply Rmult_lt_0_compat; [apply Rmult_lt_0_compat; lra | lra]. }
    lra. }
  set (r := r_real b g) in *. clearbody r.
  unfold psi_f_at. simpl.
  unfold heaviside. decide_R. simpl. decide_R. rewrite Hint.
  destruct (Z.odd (Int_part g)); simpl;
    match goal with
    | |- context [eval_genlaguerre k (Fin ?a) (Fin ?x)] =>
        destruct (eval_genlaguerre_fin k a x ltac:(lra)) as [y Hy]; rewrite Hy
    end; simpl; apply f_equal; ring.
Qed.

(** ** Integrals: the tools *)

(** The fundamental theorem on an interval: the integral of a continuous
    [f] is the increment of any [F] whose derivative on the interval is
    [f]. *)
Lemma newton_leibniz (f F : R -> R) (a b : R) :
  a <= b ->
  (forall x, a <= x <= b -> continuity_pt f x) ->
  (forall x, a <= x <= b -> derivable_pt_lim F x (f x)) ->
  forall pr : Riemann_integrable f a b, RiemannInt pr = F b - F a.
Proof.
  intros h C0 HF pr.
  pose proof (RiemannInt_P29 h C0) as H1.
  assert (H2 : antiderivative f F a b).
  { split; [| assumption]. intros x Hx.
    exists (exist _ (f x) (HF x Hx)). reflexivity. }
  destruct (antiderivative_Ucte _ _ _ _ _ H1 H2) as [c Hc].
  rewrite (RiemannInt_P20 h (FTC_P1 h C0) pr).
  rewrite (Hc b) by lra. rewrite (Hc a) by lra. ring.
Qed.

Lemma continuity_pt_Rpower_l (y x : R) :
  0 < x -> continuity_pt (fun t => Rpower t y) x.
Proof.
  intros Hx. apply derivable_continuous_pt.
  exists (y * Rpower x (y - 1)). apply derivable_pt_lim_power. assumption.
Qed.

Lemma continuity_pt_exp_opp (x : R) : continuity_pt (fun t => exp (- t)) x.
Proof.
  apply derivable_continuous_pt.
  exists (exp (- x) * Ropp 1).
  apply (derivable_pt_lim_comp (fun t => - t) exp).
  - apply (derivable_pt_lim_opp id). apply derivable_pt_lim_id.
  - apply derivable_pt_lim_exp.
Qed.

Lemma gamma_integrand_continuous (r t : R) :
  0 < t -> continuity_pt (gamma_integrand r) t.
Proof.
  intros Ht. unfold gamma_integrand.
  apply (continuity_pt_mult (fun t => Rpower t (r - 1)) (fun t => exp (- t))).
  - apply continuity_pt_Rpower_l. assumption.
  - apply continuity_pt_exp_opp.
Qed.

Lemma gamma_integrand_integrable (r a T : R) :
  0 < a -> a <= T -> Riemann_integrable (gamma_integrand r) a T.
Proof.
  intros Ha HT. apply continuity_implies_RiemannInt; [assumption |].
  intros x Hx. apply gamma_integrand_continuous. lra.
Qed.

(** Euler's integral has one value. *)
Lemma Gamma_integral_unique (r v1 v2 : R) :
  Gamma_integral r v1 -> Gamma_integral r v2 -> v1 = v2.
Proof.
  intros H1 H2.
  destruct (Req_dec v1 v2) as [E | NE]; [assumption | exfalso].
  assert (Heps : 0 < Rabs (v1 - v2) / 2).
  { assert (Hd : v1 - v2 <> 0) by lra.
    apply Rabs_pos_lt in Hd. lra. }
  destruct (H1 _ Heps) as (a1 & T1 & Ha1 & HaT1 & K1).
  destruct (H2 _ Heps) as (a2 & T2 & Ha2 & HaT2 & K2).
  set (a := Rmin a1 a2). set (T := Rmax T1 T2).
  assert (Ha : 0 < a) by (unfold a; apply Rmin_pos; assumption).
  pose proof (Rmin_l a1 a2). pose proof (Rmin_r a1 a2).
  pose proof (Rmax_l T1 T2). pose proof (Rmax_r T1 T2).
  assert (HaT : a <= T) by (unfold a, T; lra).
  pose (pr := gamma_integrand_integrable r a T Ha HaT).
  specialize (K1 a T pr Ha ltac:(unfold a; lra) ltac:(unfold T; lra)).
  specialize (K2 a T pr Ha ltac:(unfold a; lra) ltac:(unfold T; lra)).
  assert (Htri : Rabs (v1 - v2) <= Rabs (RiemannInt pr - v1) + Rabs (RiemannInt pr - v2)).
  { replace (v1 - v2) with (- (RiemannInt pr - v1) + (RiemannInt pr - v2)) by ring.
    eapply Rle_trans; [apply Rabs_triang |]. rewrite Rabs_Ropp. lra. }
  lra.
Qed.

Lemma gamma_integrand_1 (t : R) : gamma_integrand 1 t = exp (- t).
Proof.
  unfold gamma_integrand, Rpower.
  replace ((1 - 1) * ln t) with 0 by ring. rewrite exp_0. ring.
Qed.

Lemma derivable_pt_lim_neg_exp_opp (x : R) :
  derivable_pt_lim (fun t => - exp (- t)) x (exp (- x)).
Proof.
  replace (exp (- x)) with (- (exp (- x) * Ropp 1)) by ring.
  apply (derivable_pt_lim_opp (fun t => exp (- t))).
  apply (derivable_pt_lim_comp (fun t => - t) exp).
  - apply (derivable_pt_lim_opp id). apply derivable_pt_lim_id.
  - apply derivable_pt_lim_exp.
Qed.

Lemma gamma_integrand_1_integral (a T : R)
    (pr : Riemann_integrable (gamma_integrand 1) a T) :
  0 < a -> a <= T -> RiemannInt pr = exp (- a) - exp (- T).
Proof.
  intros Ha HT.
  rewrite (newton_leibniz (gamma_integrand 1) (fun t => - exp (- t)) a T HT).
  - ring.
  - intros x Hx. apply gamma_integrand_continuous. lra.
  - intros x _. rewrite gamma_integrand_1. apply derivable_pt_lim_neg_exp_opp.
Qed.

Lemma exp_opp_lower (a : R) : 1 - a <= exp (- a).
Proof. pose proof (exp_ineq1_le (- a)). lra. Qed.

Lemma exp_opp_upper (T : R) : 0 <= T -> exp (- T) <= / (1 + T).
Proof.
  intros HT. rewrite exp_Ropp.
  apply Rinv_le_contravar; [lra | apply exp_ineq1_le].
Qed.

(** Gamma at 1 is 1. *)
Lemma Gamma_integral_1 : Gamma_integral 1 1.
Proof.
  intros eps Heps.
  exists (Rmin (eps / 2) 1), (Rmax (2 / eps) 1).
  pose proof (Rmin_l (eps / 2) 1) as Hm1. pose proof (Rmin_r (eps / 2) 1) as Hm2.
  pose proof (Rmax_l (2 / eps) 1) as HM1. pose proof (Rmax_r (2 / eps) 1) as HM2.
  assert (Hmin : 0 < Rmin (eps / 2) 1) by (apply Rmin_pos; lra).
  split; [assumption |]. split; [lra |].
  intros a T pr Ha Ha0 HT.
  rewrite gamma_integrand_1_integral by lra.
  pose proof (exp_opp_lower a) as Hl.
  pose proof (exp_pos (- T)) as HeT.
  assert (Hu : exp (- a) < 1).
  { rewrite <- exp_0. apply exp_increasing. lra. }
  assert (HT0 : 0 < T) by lra.
  pose proof (exp_opp_upper T ltac:(lra)) as HuT.
  assert (HinvT : / (1 + T) < eps / 2).
  { assert (H2e : 0 < 2 / eps) by (apply div_pos; lra).
    replace (eps / 2) with (/ (2 / eps)) by (field; lra).
    apply Rinv_lt_contravar; [apply Rmult_lt_0_compat; lra | lra]. }
  apply Rabs_def1; lra.
Qed.

(** ** The energy of the base wavelet *)

Section Energy.

Variables b g s : R.
Variable n : string.
Hypothesis Hb : 0 < b.
Hypothesis Hg : 0 < g.
Hypothesis Hs : 0 < s.

(** [psi_f] as a function of a real frequency: the closed form above zero,
    0 elsewhere. *)
Lemma psi_f_real_eq (f : R) :
  psi_f_real (mkMorseWavelet (Fin b) (Fin g) n) s 0 f
  = if Rltb 0 f then morse_real b g (logA_real n b g s 0) s f else 0.
Proof.
  unfold psi_f_real.
  rewrite (psi_f_pos_params b g s n (PyFloat (Fin s)) 0) by (assumption || reflexivity).
  simpl.
  destruct (Rlt_dec 0 f) as [Hpos | Hnpos].
  - rewrite psi_f_at_pos by assumption. rewrite Rltb_true by assumption. reflexivity.
  - rewrite Rltb_false by assumption.
    destruct (Req_dec_T f 0) as [-> | Hne].
    + rewrite psi_f_at_zero_0 by assumption. reflexivity.
    + rewrite psi_f_at_neg by lra. destruct (is_int g); reflexivity.
Qed.

Lemma aw_pos (f : R) : 0 < f -> 0 < s * 2 * PI * f.
Proof.
  intros Hf. pose proof PI_RGT_0.
  apply Rmult_lt_0_compat; [apply Rmult_lt_0_compat; lra | lra].
Qed.

(** The square of the closed form. *)
Lemma morse_real_sqr (la f : R) :
  0 < f ->
  (morse_real b g la s f)²
  = s² * exp (2 * la) * Rpower (s * 2 * PI * f) (2 * b)
    * exp (- (2 * Rpower (s * 2 * PI * f) g)).
Proof.
  intros Hf. unfold morse_real, Rsqr, Rpower.
  set (L := ln (s * 2 * PI * f)). set (U := exp (g * L)).
  transitivity (s * s * exp ((la - U + b * L) + (la - U + b * L))).
  { rewrite (exp_plus (la - U + b * L) (la - U + b * L)). ring. }
  transitivity (s * s * exp (2 * la + 2 * b * L + - (2 * U))).
  { apply f_equal, f_equal. ring. }
  rewrite !exp_plus. ring.
Qed.

Lemma morse_real_sqr_le (la f : R) :
  0 < f ->
  (morse_real b g la s f)²
  <= s² * exp (2 * la) * Rpower (s * 2 * PI * f) (2 * b).
Proof.
  intros Hf. rewrite morse_real_sqr by assumption.
  assert (Hc : 0 <= s² * exp (2 * la) * Rpower (s * 2 * PI * f) (2 * b)).
  { apply Rmult_le_pos; [apply Rmult_le_pos |].
    - apply Rle_0_sqr.
    - left. apply exp_pos.
    - left. apply Rpower_pos. }
  assert (He : exp (- (2 * Rpower (s * 2 * PI * f) g)) <= 1).
  { rewrite <- exp_0. pose proof (Rpower_pos (s * 2 * PI * f) g).
    left. apply exp_increasing. lra. }
  rewrite <- (Rmult_1_r (s² * exp (2 * la) * Rpower (s * 2 * PI * f) (2 * b))) at 2.
  apply Rmult_le_compat_l; assumption.
Qed.

Lemma derivable_pt_lim_aw (x : R) :
  derivable_pt_lim (fun f => s * 2 * PI * f) x (s * 2 * PI).
Proof.
  pose proof (derivable_pt_lim_scal id (s * 2 * PI) x 1 (derivable_pt_lim_id x)) as H.
  rewrite Rmult_1_r in H. exact H.
Qed.

Lemma continuity_pt_aw (x : R) : continuity_pt (fun f => s * 2 * PI * f) x.
Proof.
  apply derivable_continuous_pt. exists (s * 2 * PI). apply derivable_pt_lim_aw.
Qed.

Lemma continuity_pt_ln_aw (x : R) :
  0 < x -> continuity_pt (fun f => ln (s * 2 * PI * f)) x.
Proof.
  intros Hx.
  apply (continuity_pt_comp (fun f => s * 2 * PI * f) ln).
  - apply continuity_pt_aw.
  - apply derivable_continuous_pt. exists (/ (s * 2 * PI * x)).
    apply derivable_pt_lim_ln. apply aw_pos. assumption.
Qed.

(** The argument of the Laguerre factor, [2 * aw ** gamma], and its
    derivative in the frequency. *)
Lemma derivable_pt_lim_two_aw_pow (x : R) :
  0 < x ->
  derivable_pt_lim (fun f => 2 * Rpower (s * 2 * PI * f) g) x
    (2 * (g * Rpower (s * 2 * PI * x) (g - 1) * (s * 2 * PI))).
Proof.
  intros Hx.
  apply (derivable_pt_lim_scal (fun f => Rpower (s * 2 * PI * f) g) 2 x).
  apply (derivable_pt_lim_comp (fun f => s * 2 * PI * f) (fun y => Rpower y g)).
  - apply derivable_pt_lim_aw.
  - apply derivable_pt_lim_power. apply aw_pos. assumption.
Qed.

Lemma continuity_pt_aw_pow (x : R) :
  0 < x -> continuity_pt (fun f => Rpower (s * 2 * PI * f) g) x.
Proof.
  intros Hx.
  apply (continuity_pt_comp (fun f => s * 2 * PI * f) (fun y => Rpower y g)).
  - apply continuity_pt_aw.
  - apply continuity_pt_Rpower_l. apply aw_pos. assumption.
Qed.

Lemma continuity_pt_exp (y : R) : continuity_pt exp y.
Proof.
  apply derivable_continuous_pt. exists (exp y). apply derivable_pt_lim_exp.
Qed.

Lemma morse_real_continuous (la x : R) :
  0 < x -> continuity_pt (morse_real b g la s) x.
Proof.
  intros Hx. unfold morse_real.
  apply (continuity_pt_scal
           (fun f => exp (la - Rpower (s * 2 * PI * f) g + b * ln (s * 2 * PI * f)))
           s x).
  apply (continuity_pt_comp
           (fun f => la - Rpower (s * 2 * PI * f) g + b * ln (s * 2 * PI * f)) exp).
  - apply (continuity_pt_plus
             (fun f => la - Rpower (s * 2 * PI * f) g)
             (fun f => b * ln (s * 2 * PI * f))).
    + apply (continuity_pt_minus (fun _ => la) (fun f => Rpower (s * 2 * PI * f) g)).
      * apply continuity_pt_const. intros u v. reflexivity.
      * apply continuity_pt_aw_pow. assumption.
    + apply (continuity_pt_scal (fun f => ln (s * 2 * PI * f)) b x).
      apply continuity_pt_ln_aw. assumption.
  - apply continuity_pt_exp.
Qed.

Lemma energy_density_eq (f : R) :
  energy_density (mkMorseWavelet (Fin b) (Fin g) n) s f
  = if Rltb 0 f then (morse_real b g (logA_real n b g s 0) s f)² else 0.
Proof.
  unfold energy_density. rewrite psi_f_real_eq.
  destruct (Rltb 0 f); [reflexivity | apply Rsqr_0].
Qed.

Lemma energy_density_pos_freq (f : R) :
  0 < f ->
  energy_density (mkMorseWavelet (Fin b) (Fin g) n) s f
  = (morse_real b g (logA_real n b g s 0) s f)².
Proof. intros Hf. rewrite energy_density_eq, Rltb_true by assumption. reflexivity. Qed.

Lemma energy_density_nonpos_freq (f : R) :
  f <= 0 -> energy_density (mkMorseWavelet (Fin b) (Fin g) n) s f = 0.
Proof. intros Hf. rewrite energy_density_eq, Rltb_false by lra. reflexivity. Qed.

Lemma energy_density_nonneg (f : R) :
  0 <= energy_density (mkMorseWavelet (Fin b) (Fin g) n) s f.
Proof. unfold energy_density. apply Rle_0_sqr. Qed.

Lemma energy_density_continuous_pos (x : R) :
  0 < x ->
  continuity_pt (energy_density (mkMorseWavelet (Fin b) (Fin g) n) s) x.
Proof.
  intros Hx.
  apply (continuity_pt_locally_ext
           (fun f => morse_real b g (logA_real n b g s 0) s f
                     * morse_real b g (logA_real n b g s 0) s f)
           _ x x Hx).
  - intros y Hy. unfold Rdist in Hy. apply Rabs_def2 in Hy.
    rewrite energy_density_pos_freq by lra. reflexivity.
  - apply (continuity_pt_mult (morse_real b g (logA_real n b g s 0) s)
                              (morse_real b g (logA_real n b g s 0) s));
      apply morse_real_continuous; assumption.
Qed.

(** Near zero the density is below any bound: it is at most
    [s^2 exp(2 logA) aw^(2 beta)]. *)
Lemma energy_density_continuous_0 :
  continuity_pt (energy_density (mkMorseWavelet (Fin b) (Fin g) n) s) 0.
Proof.
  set (la := logA_real n b g s 0).
  set (C := s² * exp (2 * la)).
  assert (HC : 0 < C).
  { unfold C. apply Rmult_lt_0_compat; [apply Rsqr_pos_lt; lra | apply exp_pos]. }
  pose proof PI_RGT_0 as Hpi.
  assert (Hc : 0 < s * 2 * PI) by (apply Rmult_lt_0_compat; lra).
  intros eps Heps.
  assert (HeC : 0 < eps / C) by (apply div_pos; assumption).
  set (v := Rpower (eps / C) (/ (2 * b))).
  assert (Hv : 0 < v) by apply Rpower_pos.
  exists (v / (s * 2 * PI)). split; [apply div_pos; assumption |].
  intros x [_ Hx]. simpl in Hx. unfold Rdist in Hx. rewrite Rminus_0_r in Hx.
  simpl. unfold Rdist.
  rewrite (energy_density_nonpos_freq 0) by lra. rewrite Rminus_0_r.
  rewrite Rabs_pos_eq by apply energy_density_nonneg.
  destruct (Rlt_dec 0 x) as [Hpos | Hnpos].
  - rewrite energy_density_pos_freq by assumption.
    eapply Rle_lt_trans; [apply morse_real_sqr_le; assumption |].
    fold la. fold C.
    rewrite Rabs_pos_eq in Hx by lra.
    assert (Hu : s * 2 * PI * x < v).
    { apply (Rmult_lt_compat_l (s * 2 * PI)) in Hx; [| assumption].
      replace (s * 2 * PI * (v / (s * 2 * PI))) with v in Hx by (field; lra).
      assumption. }
    pose proof (aw_pos x Hpos) as Hu0.
    assert (Hp : Rpower (s * 2 * PI * x) (2 * b) < eps / C).
    { replace (eps / C) with (Rpower v (2 * b)).
      - apply Rlt_Rpower_l; lra.
      - unfold v. rewrite Rpower_mult.
        replace (/ (2 * b) * (2 * b)) with 1 by (field; lra).
        apply Rpower_1. assumption. }
    apply (Rmult_lt_compat_l C) in Hp; [| assumption].
    replace (C * (eps / C)) with eps in Hp by (field; lra).
    assumption.
  - rewrite energy_density_nonpos_freq by lra. assumption.
Qed.

Lemma energy_density_continuous (x : R) :
  0 <= x ->
  continuity_pt (energy_density (mkMorseWavelet (Fin b) (Fin g) n) s) x.
Proof.
  intros [Hx | <-].
  - apply energy_density_continuous_pos. assumption.
  - apply energy_density_continuous_0.
Qed.

Lemma energy_density_integrable (x0 x1 : R) :
  0 <= x0 -> x0 <= x1 ->
  Riemann_integrable (energy_density (mkMorseWavelet (Fin b) (Fin g) n) s) x0 x1.
Proof.
  intros H0 H1. apply continuity_implies_RiemannInt; [assumption |].
  intros x Hx. apply energy_density_continuous. lra.
Qed.

Lemma gamma_arg_pos (x : R) : 0 < gamma_arg g s x.
Proof.
  unfold gamma_arg. pose proof (Rpower_pos (s * 2 * PI * x) g). lra.
Qed.

Lemma gamma_arg_le (x0 x1 : R) :
  0 < x0 -> x0 <= x1 -> gamma_arg g s x0 <= gamma_arg g s x1.
Proof.
  intros H0 H1. unfold gamma_arg.
  pose proof PI_RGT_0 as Hpi.
  assert (Hc : 0 < s * 2 * PI) by (apply Rmult_lt_0_compat; lra).
  apply Rmult_le_compat_l; [lra |].
  apply Rle_Rpower_l; [lra |]. split; [apply aw_pos; assumption |].
  apply Rmult_le_compat_l; lra.
Qed.

Lemma derivable_pt_lim_gamma_arg (x : R) :
  0 < x ->
  derivable_pt_lim (gamma_arg g s) x
    (2 * (g * Rpower (s * 2 * PI * x) (g - 1) * (s * 2 * PI))).
Proof. intros Hx. apply derivable_pt_lim_two_aw_pow. assumption. Qed.

(** The density is the integrand of Gamma at [2 aw^gamma], times the
    derivative of the change of variable, times the constant. *)
Lemma energy_density_change_of_variable (x : R) :
  0 < x ->
  energy_density (mkMorseWavelet (Fin b) (Fin g) n) s x
  = energy_scale b g (logA_real n b g s 0) s
    * (gamma_integrand (r_real b g) (gamma_arg g s x)
       * (2 * (g * Rpower (s * 2 * PI * x) (g - 1) * (s * 2 * PI)))).
Proof.
  intros Hx.
  rewrite energy_density_pos_freq by assumption.
  rewrite morse_real_sqr by assumption.
  pose proof PI_RGT_0 as Hpi.
  pose proof (aw_pos x Hx) as Hu.
  unfold energy_scale, gamma_integrand, gamma_arg.
  set (u := s * 2 * PI * x) in *.
  set (la := logA_real n b g s 0).
  set (r := r_real b g).
  rewrite <- (Rpower_mult_distr 2 (Rpower u g) (r - 1))
    by (try apply Rpower_pos; lra).
  rewrite (Rpower_mult u g (r - 1)).
  assert (Hexp : Rpower u (2 * b) = Rpower u (g * (r - 1)) * Rpower u (g - 1)).
  { rewrite <- Rpower_plus. apply f_equal.
    unfold r, r_real. field. lra. }
  rewrite Hexp.
  pose proof (Rpower_pos 2 (r - 1)) as Hp2.
  field. repeat split; lra.
Qed.

Lemma gamma_integrand_interval (A B t0 t1 : R)
    (hAB : A <= B)
    (C0 : forall t, A <= t <= B -> continuity_pt (gamma_integrand (r_real b g)) t)
    (prg : Riemann_integrable (gamma_integrand (r_real b g)) t0 t1) :
  A < t0 -> t0 <= t1 -> t1 < B ->
  RiemannInt prg
  = primitive hAB (FTC_P1 hAB C0) t1 - primitive hAB (FTC_P1 hAB C0) t0.
Proof.
  intros H0 H01 H1.
  apply newton_leibniz; [assumption | |].
  - intros t Ht. apply C0. lra.
  - intros t Ht. apply RiemannInt_P27. lra.
Qed.

(** The energy between two positive frequencies is the constant times
    Euler's integral between their images. *)
Lemma energy_between (x0 x1 : R)
    (pr : Riemann_integrable
            (energy_density (mkMorseWavelet (Fin b) (Fin g) n) s) x0 x1)
    (prg : Riemann_integrable (gamma_integrand (r_real b g))
             (gamma_arg g s x0) (gamma_arg g s x1)) :
  0 < x0 -> x0 <= x1 ->
  RiemannInt pr = energy_scale b g (logA_real n b g s 0) s * RiemannInt prg.
Proof.
  intros H0 H01.
  pose proof (gamma_arg_pos x0) as Ht0.
  pose proof (gamma_arg_le x0 x1 H0 H01) as Ht01.
  set (A := gamma_arg g s x0 / 2).
  set (B := gamma_arg g s x1 + 1).
  assert (hAB : A <= B) by (unfold A, B; lra).
  assert (C0 : forall t, A <= t <= B -> continuity_pt (gamma_integrand (r_real b g)) t).
  { intros t Ht. apply gamma_integrand_continuous. unfold A in Ht. lra. }
  rewrite (gamma_integrand_interval A B _ _ hAB C0 prg)
    by (unfold A, B; lra).
  set (P := primitive hAB (FTC_P1 hAB C0)).
  set (K := energy_scale b g (logA_real n b g s 0) s).
  rewrite (newton_leibniz _ (fun x => K * P (gamma_arg g s x)) x0 x1 H01).
  - ring.
  - intros x Hx. apply energy_density_continuous. lra.
  - intros x Hx.
    assert (Hx0 : 0 < x) by lra.
    rewrite energy_density_change_of_variable by assumption. fold K.
    apply (derivable_pt_lim_scal (fun x => P (gamma_arg g s x)) K x).
    apply (derivable_pt_lim_comp (gamma_arg g s) P).
    + apply derivable_pt_lim_gamma_arg. assumption.
    + apply RiemannInt_P27.
      pose proof (gamma_arg_le x0 x H0 ltac:(lra)).
      pose proof (gamma_arg_le x x1 Hx0 ltac:(lra)).
      unfold A, B. lra.
Qed.

Lemma energy_density_le_peak (f : R) :
  energy_density (mkMorseWavelet (Fin b) (Fin g) n) s f
  <= (peak_real b g (logA_real n b g s 0) s)².
Proof.
  destruct (Rlt_dec 0 f) as [Hpos | Hnpos].
  - rewrite energy_density_pos_freq by assumption.
    pose proof (morse_real_pos b g (logA_real n b g s 0) s f Hs).
    pose proof (peak_real_pos b g (logA_real n b g s 0) s Hs).
    apply Rsqr_incr_1; try lra.
    apply morse_real_le_peak; assumption.
  - rewrite energy_density_nonpos_freq by lra. apply Rle_0_sqr.
Qed.

(** The energy below a small frequency is small. *)
Lemma energy_near_zero (x0 : R)
    (pr : Riemann_integrable
            (energy_density (mkMorseWavelet (Fin b) (Fin g) n) s) 0 x0) :
  0 <= x0 ->
  0 <= RiemannInt pr <= (peak_real b g (logA_real n b g s 0) s)² * x0.
Proof.
  intros Hx0. split.
  - pose proof (RiemannInt_P19 (RiemannInt_P14 0 x0 0) pr Hx0) as H.
    rewrite RiemannInt_P15 in H. rewrite Rmult_0_l in H. apply H.
    intros x _. apply energy_density_nonneg.
  - pose proof (RiemannInt_P19 pr
                  (RiemannInt_P14 0 x0 ((peak_real b g (logA_real n b g s 0) s)²))
                  Hx0) as H.
    rewrite RiemannInt_P15 in H. rewrite Rminus_0_r in H. apply H.
    intros x _. apply energy_density_le_peak.
Qed.

(** The inverse of the change of variable. *)
Lemma gamma_arg_inverse (t : R) :
  0 < t -> gamma_arg g s (Rpower (t / 2) (/ g) / (s * 2 * PI)) = t.
Proof.
  intros Ht. unfold gamma_arg.
  pose proof PI_RGT_0 as Hpi.
  assert (Hc : 0 < s * 2 * PI) by (apply Rmult_lt_0_compat; lra).
  replace (s * 2 * PI * (Rpower (t / 2) (/ g) / (s * 2 * PI)))
    with (Rpower (t / 2) (/ g)) by (field; lra).
  rewrite Rpower_mult.
  replace (/ g * g) with 1 by (field; lra).
  rewrite Rpower_1 by lra. field.
Qed.

Lemma gamma_arg_inverse_pos (t : R) :
  0 < Rpower (t / 2) (/ g) / (s * 2 * PI).
Proof.
  pose proof PI_RGT_0 as Hpi.
  apply div_pos; [apply Rpower_pos | apply Rmult_lt_0_compat; lra].
Qed.

(** If [Gr] is Gamma at [r] and the constant of the change of variable is
    its inverse, the energy is 1. *)
Lemma energy_limit (Gr : R) :
  0 < Gr ->
  Gamma_integral (r_real b g) Gr ->
  energy_scale b g (logA_real n b g s 0) s * Gr = 1 ->
  integral_0_inf (energy_density (mkMorseWavelet (Fin b) (Fin g) n) s) 1.
Proof.
  intros HGr HG HK.
  set (K := energy_scale b g (logA_real n b g s 0) s) in *.
  set (M := (peak_real b g (logA_real n b g s 0) s)²).
  assert (HM : 0 < M).
  { unfold M. apply Rsqr_pos_lt.
    pose proof (peak_real_pos b g (logA_real n b g s 0) s Hs). lra. }
  assert (HKpos : 0 < K).
  { destruct (Rlt_dec 0 K) as [H | H]; [assumption | exfalso].
    assert (K * Gr <= 0).
    { replace 0 with (0 * Gr) by ring. apply Rmult_le_compat_r; lra. }
    lra. }
  split.
  { intros F HF. constructor. apply energy_density_integrable; lra. }
  intros eps Heps.
  assert (Heps1 : 0 < eps / 2 * Gr) by (apply Rmult_lt_0_compat; lra).
  destruct (HG _ Heps1) as (a0 & T0 & Ha0 & HaT & Hlim).
  set (inv := fun t => Rpower (t / 2) (/ g) / (s * 2 * PI)).
  set (x0 := Rmin (inv a0) (eps / (4 * M))).
  assert (Hx0 : 0 < x0).
  { unfold x0. apply Rmin_pos; [apply gamma_arg_inverse_pos |].
    apply div_pos; lra. }
  pose proof (Rmin_l (inv a0) (eps / (4 * M))) as Hx0a.
  pose proof (Rmin_r (inv a0) (eps / (4 * M))) as Hx0e.
  fold x0 in Hx0a, Hx0e.
  exists (Rmax (inv T0) x0).
  pose proof (Rmax_l (inv T0) x0) as HF1.
  pose proof (Rmax_r (inv T0) x0) as HF2.
  split; [lra |].
  intros F pr HF.
  assert (HxF : x0 <= F) by lra.
  pose (pr0 := energy_density_integrable 0 x0 (Rle_refl 0) (Rlt_le _ _ Hx0)).
  pose (pr1 := energy_density_integrable x0 F (Rlt_le _ _ Hx0) HxF).
  assert (Hga0 : gamma_arg g s x0 <= a0).
  { rewrite <- (gamma_arg_inverse a0 Ha0). apply gamma_arg_le; assumption. }
  assert (HgT0 : T0 <= gamma_arg g s F).
  { assert (HT0 : 0 < T0) by lra.
    rewrite <- (gamma_arg_inverse T0 HT0).
    apply gamma_arg_le; [apply gamma_arg_inverse_pos | fold (inv T0); lra]. }
  pose proof (gamma_arg_pos x0) as Hg0.
  pose (prg := gamma_integrand_integrable (r_real b g) (gamma_arg g s x0)
                 (gamma_arg g s F) Hg0 (gamma_arg_le x0 F Hx0 HxF)).
  rewrite <- (RiemannInt_P26 pr0 pr1 pr).
  rewrite (energy_between x0 F pr1 prg Hx0 HxF). fold K.
  pose proof (energy_near_zero x0 pr0 (Rlt_le _ _ Hx0)) as [Hlo Hhi]. fold M in Hhi.
  pose proof (Hlim _ _ prg Hg0 Hga0 HgT0) as HI.
  assert (HMx : M * x0 < eps / 2).
  { apply Rle_lt_trans with (M * (eps / (4 * M))).
    - apply Rmult_le_compat_l; lra.
    - replace (M * (eps / (4 * M))) with (eps / 4) by (field; lra). lra. }
  assert (HKI : Rabs (K * RiemannInt prg - 1) < eps / 2).
  { replace (K * RiemannInt prg - 1) with (K * (RiemannInt prg - Gr))
      by (rewrite <- HK; ring).
    rewrite Rabs_mult, (Rabs_pos_eq K) by lra.
    apply Rlt_le_trans with (K * (eps / 2 * Gr)).
    - apply Rmult_lt_compat_l; assumption.
    - right. replace (K * (eps / 2 * Gr)) with (eps / 2 * (K * Gr)) by ring.
      rewrite HK. ring. }
  apply Rabs_def2 in HKI. apply Rabs_def1; lra.
Qed.

End Energy.

Lemma Rpower_2_2 : Rpower 2 2 = 4.
Proof.
  replace 2 with (1 + 1) at 2 by ring.
  rewrite Rpower_plus, Rpower_1 by lra. ring.
Qed.

(** With the energy norm, and [lngamma] the logarithm of Gamma at 1 and at
    [r], the constant of the change of variable is the inverse of Gamma at
    [r]. *)
Lemma energy_scale_energy_norm (b g s : R) :
  0 < b -> 0 < g -> 0 < s ->
  exp (lngamma 1) = 1 ->
  energy_scale b g (logA_real "energy" b g s 0) s * exp (lngamma (r_real b g)) = 1.
Proof.
  intros Hb Hg Hs H1.
  pose proof PI_RGT_0 as Hpi.
  unfold energy_scale, logA_real. simpl.
  set (r := r_real b g).
  replace (0 + 1) with 1 by ring. replace (0 + r) with r by ring.
  replace (2 * (1 / 2 * (ln (PI * g / s) + (r + 1) * ln 2 + lngamma 1 - lngamma r)))
    with (ln (PI * g / s) + (r + 1) * ln 2 + lngamma 1 + - lngamma r) by field.
  rewrite !exp_plus, H1, exp_Ropp.
  rewrite exp_ln by (apply div_pos; [apply Rmult_lt_0_compat |]; lra).
  change (exp ((r + 1) * ln 2)) with (Rpower 2 (r + 1)).
  replace (r + 1) with ((r - 1) + 2) by ring.
  rewrite Rpower_plus, Rpower_2_2.
  pose proof (Rpower_pos 2 (r - 1)).
  pose proof (exp_pos (lngamma r)).
  unfold Rsqr. field. repeat split; lra.
Qed.

(** The energy norm in exact arithmetic.  With [beta > 0], [gamma > 0],
    [scale > 0] and [k = 0], and with [loggamma] the logarithm of Euler's
    Gamma at the two arguments the code passes (1 and
    [r = (2 beta + 1) / gamma]): the formula of [psi_f], evaluated on the
    reals, gives a number at every frequency [f >= 0], and the integral of
    its square over the non-negative frequencies is 1. *)
Theorem energy_norm_is_1 (b g s : R) :
  0 < b -> 0 < g -> 0 < s ->
  Gamma_integral 1 (exp (lngamma 1)) ->
  Gamma_integral (r_real b g) (exp (lngamma (r_real b g))) ->
  let w := mkMorseWavelet (Fin b) (Fin g) "energy" in
  (forall f, 0 <= f -> exists y,
      psi_f w (Scalar (Fin f)) (PyFloat (Fin s)) 0 = Ok (Scalar (Fin y)) /\
      psi_f_real w s 0 f = y) /\
  integral_0_inf (fun f => (psi_f_real w s 0 f)²) 1.
Proof.
  intros Hb Hg Hs HG1 HGr w. subst w. split.
  - intros f Hf.
    destruct (psi_f_base_nonneg_freq b g s f "energy" Hb Hg Hs Hf) as (y & Hy & _).
    exists y. split; [assumption |]. unfold psi_f_real. rewrite Hy. reflexivity.
  - apply (energy_limit b g s "energy" Hb Hg Hs (exp (lngamma (r_real b g)))).
    + apply exp_pos.
    + assumption.
    + apply energy_scale_energy_norm; try assumption.
      apply (Gamma_integral_unique 1); [assumption | apply Gamma_integral_1].
Qed.

(** ** Values up to rounding *)

Lemma tiny_pos : 0 < tiny.
Proof. unfold tiny. apply Rinv_0_lt_compat. lra. Qed.

Lemma tiny_small : tiny <= / 10 ^ 300.
Proof. unfold tiny. lra. Qed.

Lemma le_huge (x : R) : Rabs x <= 10 ^ 9 -> Rabs x <= huge.
Proof. intros H. unfold huge. lra. Qed.

(** Bounds of [exp] and [ln] by rational numbers. *)
Lemma exp_5_lower : 50 < exp 5.
Proof.
  pose proof (exp_ineq1 (1 / 4) ltac:(lra)) as H4.
  assert (H2 : exp (1 / 2) = exp (1 / 4) * exp (1 / 4))
    by (rewrite <- exp_plus; f_equal; lra).
  assert (H1 : exp 1 = exp (1 / 2) * exp (1 / 2))
    by (rewrite <- exp_plus; f_equal; lra).
  assert (E2 : exp 2 = exp 1 * exp 1) by (rewrite <- exp_plus; f_equal; lra).
  assert (E4 : exp 4 = exp 2 * exp 2) by (rewrite <- exp_plus; f_equal; lra).
  assert (E5 : exp 5 = exp 4 * exp 1) by (rewrite <- exp_plus; f_equal; lra).
  assert (A2 : 25 / 16 < exp (1 / 2)) by nra.
  assert (A1 : 2 < exp 1) by nra.
  assert (B1 : 61 / 25 < exp 1) by nra.
  assert (B2 : 5 < exp 2) by nra.
  assert (B4 : 25 < exp 4) by nra.
  nra.
Qed.

Lemma ln_bound (x : R) : 1 / 50 <= x <= 50 -> -5 <= ln x <= 5.
Proof.
  intros [Hlo Hhi]. pose proof exp_5_lower as H5.
  assert (Hx : 0 < x) by lra.
  split.
  - assert (H : ln (/ x) < 5).
    { rewrite <- (ln_exp 5). apply ln_increasing.
      - apply Rinv_0_lt_compat. assumption.
      - assert (/ x <= 50); [| lra].
        replace 50 with (/ (1 / 50)) by field.
        apply Rinv_le_contravar; lra. }
    rewrite ln_Rinv in H by assumption. lra.
  - left. rewrite <- (ln_exp 5). apply ln_increasing; lra.
Qed.

Lemma exp_le_mono (x y : R) : x <= y -> exp x <= exp y.
Proof.
  intros [H | ->]; [left; apply exp_increasing; assumption | right; reflexivity].
Qed.

Lemma PI_bounds : 3 < PI <= 4.
Proof. pose proof PI2_3_2. pose proof PI_4. lra. Qed.

Section Rounding.

Variable fl : arith.
Variable eps : R.
Hypothesis Hacc : accurate eps fl.
Hypothesis Heps0 : 0 <= eps.
Hypothesis Heps1 : eps <= / 10 ^ 15.

Lemma Rabs_le_iff (x d : R) : Rabs x <= d <-> - d <= x <= d.
Proof.
  split.
  - intros H. unfold Rabs in H. destruct (Rcase_abs x); lra.
  - intros H. unfold Rabs. destruct (Rcase_abs x); lra.
Qed.

Lemma Rmax_le_sum (x : R) : 0 <= x -> Rmax x tiny <= x + tiny.
Proof.
  intros Hx. pose proof tiny_pos. unfold Rmax. destruct (Rle_dec x tiny); lra.
Qed.

(** Rounding a positive quantity known up to a relative error. *)
Lemma round_rel (k x z y : R) :
  / 10 ^ 9 <= x -> 0 <= k <= 10 ^ 6 ->
  Rabs (z - x) <= k * eps * x ->
  Rabs (y - z) <= eps * Rmax (Rabs z) tiny ->
  Rabs (y - x) <= (k + 2) * eps * x.
Proof.
  intros Hx Hk Hz Hy.
  pose proof tiny_small as Ht. pose proof tiny_pos as Ht0.
  assert (Hx0 : 0 < x) by lra.
  apply Rabs_le_iff in Hz.
  assert (Hke : k * eps <= / 10 ^ 8) by nra.
  assert (Hke0 : 0 <= k * eps) by nra.
  assert (Hzx : x / 2 <= z <= 2 * x) by nra.
  assert (Hmax : Rmax (Rabs z) tiny = z).
  { rewrite Rabs_pos_eq by lra. apply Rmax_left. lra. }
  rewrite Hmax in Hy. apply Rabs_le_iff in Hy.
  apply Rabs_le_iff. nra.
Qed.


(** Rounding a quantity known up to an absolute error. *)
Lemma round_abs (k X x z y : R) :
  Rabs x <= X -> 0 <= k <= 10 ^ 6 ->
  Rabs (z - x) <= k * eps ->
  Rabs (y - z) <= eps * Rmax (Rabs z) tiny ->
  Rabs (y - x) <= (k + X + 1) * eps.
Proof.
  intros Hx Hk Hz Hy.
  pose proof tiny_small as Ht. pose proof tiny_pos as Ht0.
  assert (Hke : k * eps <= / 10 ^ 8) by nra.
  assert (Hke0 : 0 <= k * eps) by nra.
  assert (HX : 0 <= X) by (pose proof (Rabs_pos x); lra).
  assert (Hza : Rabs z <= X + k * eps).
  { replace z with (x + (z - x)) by ring.
    eapply Rle_trans; [apply Rabs_triang |]. lra. }
  pose proof (Rmax_le_sum (Rabs z) (Rabs_pos z)) as Hm.
  assert (Hyz : Rabs (y - z) <= eps * (X + 1)).
  { eapply Rle_trans; [exact Hy |]. apply Rmult_le_compat_l; lra. }
  replace (y - x) with ((y - z) + (z - x)) by ring.
  eapply Rle_trans; [apply Rabs_triang |]. lra.
Qed.

Lemma mul_rel (ka kb a a' b b' : R) :
  0 < a -> 0 < b -> 0 <= ka <= 10 ^ 6 -> 0 <= kb <= 10 ^ 6 ->
  Rabs (a' - a) <= ka * eps * a ->
  Rabs (b' - b) <= kb * eps * b ->
  Rabs (a' * b' - a * b) <= (ka + kb + 1) * eps * (a * b).
Proof.
  intros Ha Hb Hka Hkb Ha' Hb'.
  apply Rabs_le_iff in Ha', Hb'. apply Rabs_le_iff.
  assert (Hke : ka * eps <= / 10 ^ 8) by nra.
  assert (Hke0 : 0 <= ka * eps) by nra.
  assert (Hkf : kb * eps <= / 10 ^ 8) by nra.
  assert (Hkf0 : 0 <= kb * eps) by nra.
  set (da := a' - a) in *. set (db := b' - b) in *.
  replace (a' * b' - a * b) with (da * b + a * db + da * db) by (unfold da, db; ring).
  assert (Hab : 0 < a * b) by (apply Rmult_lt_0_compat; assumption).
  assert (H1 : - (ka * eps * (a * b)) <= da * b <= ka * eps * (a * b)) by nra.
  assert (H2 : - (kb * eps * (a * b)) <= a * db <= kb * eps * (a * b)) by nra.
  assert (H3 : - (eps * (a * b)) <= da * db <= eps * (a * b)).
  { assert (Hda : Rabs da <= ka * eps * a) by (apply Rabs_le_iff; lra).
    assert (Hdb : Rabs db <= kb * eps * b) by (apply Rabs_le_iff; lra).
    assert (Hp : Rabs (da * db) <= (ka * eps * a) * (kb * eps * b)).
    { rewrite Rabs_mult. apply Rmult_le_compat; try apply Rabs_pos; assumption. }
    apply Rabs_le_iff.
    eapply Rle_trans; [exact Hp |].
    replace (ka * eps * a * (kb * eps * b)) with ((ka * eps * kb) * (eps * (a * b))) by ring.
    rewrite <- (Rmult_1_l (eps * (a * b))) at 2.
    apply Rmult_le_compat_r; [nra | nra]. }
  lra.
Qed.


Lemma rel_pos (k x x' : R) :
  0 < x -> 0 <= k <= 10 ^ 6 -> Rabs (x' - x) <= k * eps * x ->
  x / 2 <= x' <= 2 * x.
Proof.
  intros Hx Hk H. apply Rabs_le_iff in H.
  assert (Hke : k * eps <= / 10 ^ 8) by nra.
  assert (Hke0 : 0 <= k * eps) by nra.
  nra.
Qed.

Lemma scale_rel (k c x x' : R) :
  0 <= c -> Rabs (x' - x) <= k * eps * x ->
  Rabs (x' * c - x * c) <= k * eps * (x * c).
Proof.
  intros Hc H.
  replace (x' * c - x * c) with ((x' - x) * c) by ring.
  rewrite Rabs_mult, (Rabs_pos_eq c) by assumption.
  replace (k * eps * (x * c)) with (k * eps * x * c) by ring.
  apply Rmult_le_compat_r; assumption.
Qed.

Lemma inv_rel (k b b' : R) :
  0 < b -> 0 <= k <= 10 ^ 6 ->
  Rabs (b' - b) <= k * eps * b ->
  Rabs (/ b' - / b) <= (k + 1) * eps * / b.
Proof.
  intros Hb Hk H.
  pose proof (rel_pos k b b' Hb Hk H) as Hb'.
  assert (Hke : k * eps <= / 10 ^ 8) by nra.
  assert (Hke0 : 0 <= k * eps) by nra.
  assert (Hb'0 : 0 < b') by lra.
  replace (/ b' - / b) with ((b - b') * / (b * b')) by (field; lra).
  rewrite Rabs_mult, Rabs_minus_sym.
  rewrite (Rabs_pos_eq (/ (b * b'))).
  2:{ left. apply Rinv_0_lt_compat. apply Rmult_lt_0_compat; assumption. }
  assert (Hlow : b * (1 - k * eps) <= b').
  { apply Rabs_le_iff in H. nra. }
  assert (Hinv : / (b * b') <= / (b * (b * (1 - k * eps)))).
  { apply Rinv_le_contravar; [nra | nra]. }
  eapply Rle_trans.
  { apply Rmult_le_compat; [apply Rabs_pos | left; apply Rinv_0_lt_compat; nra
                           | exact H | exact Hinv]. }
  replace (k * eps * b * / (b * (b * (1 - k * eps))))
    with (k * eps * / (1 - k * eps) * / b) by (field; lra).
  apply Rmult_le_compat_r; [left; apply Rinv_0_lt_compat; assumption |].
  apply (Rmult_le_reg_r (1 - k * eps)); [lra |].
  replace (k * eps * / (1 - k * eps) * (1 - k * eps)) with (k * eps) by (field; lra).
  nra.
Qed.

Lemma div_rel (ka kb a a' b b' : R) :
  0 < a -> 0 < b -> 0 <= ka <= 10 ^ 6 -> 0 <= kb <= 10 ^ 5 ->
  Rabs (a' - a) <= ka * eps * a ->
  Rabs (b' - b) <= kb * eps * b ->
  Rabs (a' / b' - a / b) <= (ka + kb + 2) * eps * (a / b).
Proof.
  intros Ha Hb Hka Hkb Ha' Hb'.
  assert (Hib : 0 < / b) by (apply Rinv_0_lt_compat; assumption).
  pose proof (inv_rel kb b b' Hb ltac:(lra) Hb') as Hi.
  pose proof (mul_rel ka (kb + 1) a a' (/ b) (/ b') Ha Hib Hka ltac:(lra) Ha' Hi) as H.
  unfold Rdiv. replace (ka + kb + 2) with (ka + (kb + 1) + 1) by ring. exact H.
Qed.

(** The logarithm of a quantity known up to a relative error. *)
Lemma ln_rel (k x x' : R) :
  0 < x -> 0 <= k <= 10 ^ 6 ->
  Rabs (x' - x) <= k * eps * x ->
  Rabs (ln x' - ln x) <= (k + 1) * eps.
Proof.
  intros Hx Hk H.
  pose proof (rel_pos k x x' Hx Hk H) as Hx'.
  assert (Hke : k * eps <= / 10 ^ 8) by nra.
  assert (Hke0 : 0 <= k * eps) by nra.
  assert (Hx'0 : 0 < x') by lra.
  apply Rabs_le_iff in H.
  assert (Hq : 0 < x' / x) by (apply Rdiv_lt_0_compat; assumption).
  assert (Hq' : 0 < x / x') by (apply Rdiv_lt_0_compat; assumption).
  pose proof (ln_le_minus_1 _ Hq) as H1.
  pose proof (ln_le_minus_1 _ Hq') as H2.
  unfold Rdiv in H1, H2.
  rewrite ln_mult in H1, H2 by (try apply Rinv_0_lt_compat; assumption).
  rewrite ln_Rinv in H1, H2 by assumption.
  assert (U : x' * / x - 1 <= k * eps).
  { apply (Rmult_le_reg_r x); [assumption |].
    replace ((x' * / x - 1) * x) with (x' - x) by (field; lra). lra. }
  assert (L : x * / x' - 1 <= (k + 1) * eps).
  { apply (Rmult_le_reg_r x'); [assumption |].
    replace ((x * / x' - 1) * x') with (x - x') by (field; lra).
    assert (Hkk : (k + 1) * (k * eps) <= 1) by nra.
    assert (Hex : 0 <= eps * x) by nra.
    assert (Hlow : x * (1 - k * eps) <= x') by nra.
    assert (H3 : (k + 1) * eps * (x * (1 - k * eps)) <= (k + 1) * eps * x').
    { apply Rmult_le_compat_l; [nra | assumption]. }
    assert (H4 : (k + 1) * (k * eps) * (eps * x) <= 1 * (eps * x)).
    { apply Rmult_le_compat_r; assumption. }
    nra. }
  apply Rabs_le_iff. lra.
Qed.

(** The exponential of a small quantity. *)
Lemma exp_near_1 (k d : R) :
  0 <= k <= 10 ^ 6 -> Rabs d <= k * eps ->
  Rabs (exp d - 1) <= (k + 1) * eps.
Proof.
  intros Hk H. apply Rabs_le_iff in H.
  assert (Hke : k * eps <= / 10 ^ 8) by nra.
  assert (Hke0 : 0 <= k * eps) by nra.
  pose proof (exp_ineq1_le d) as H1.
  pose proof (exp_ineq1_le (- d)) as H2.
  rewrite exp_Ropp in H2.
  pose proof (exp_pos d) as Hp.
  assert (U : exp d * (1 - d) <= 1).
  { apply (Rmult_le_reg_r (/ exp d)); [apply Rinv_0_lt_compat; assumption |].
    replace (exp d * (1 - d) * / exp d) with (1 - d) by (field; lra). lra. }
  apply Rabs_le_iff. split; [lra |].
  assert (exp d <= 1 + (k + 1) * eps); [| lra].
  assert (Hd : 1 - d >= 1 - k * eps) by lra.
  assert (exp d * (1 - k * eps) <= 1) by nra.
  assert ((1 + (k + 1) * eps) * (1 - k * eps) >= 1) by nra.
  nra.
Qed.

Lemma exp_rel (k E E' : R) :
  0 <= k <= 10 ^ 6 -> Rabs (E' - E) <= k * eps ->
  Rabs (exp E' - exp E) <= (k + 1) * eps * exp E.
Proof.
  intros Hk H.
  pose proof (exp_near_1 k (E' - E) Hk H) as H1.
  replace (exp E') with (exp E * exp (E' - E)).
  2:{ rewrite <- exp_plus. f_equal. ring. }
  replace (exp E * exp (E' - E) - exp E) with (exp E * (exp (E' - E) - 1)) by ring.
  rewrite Rabs_mult, (Rabs_pos_eq (exp E)) by (left; apply exp_pos).
  replace ((k + 1) * eps * exp E) with (exp E * ((k + 1) * eps)) by ring.
  apply Rmult_le_compat_l; [left; apply exp_pos | assumption].
Qed.

Lemma mul_abs (ka kb A B a a' b b' : R) :
  Rabs a <= A -> Rabs b <= B ->
  0 <= ka <= 10 ^ 6 -> 0 <= kb <= 10 ^ 6 ->
  Rabs (a' - a) <= ka * eps -> Rabs (b' - b) <= kb * eps ->
  Rabs (a' * b' - a * b) <= (ka * B + kb * A + 1) * eps.
Proof.
  intros HA HB Hka Hkb Ha Hb.
  assert (Hke : ka * eps <= / 10 ^ 8) by nra.
  assert (Hke0 : 0 <= ka * eps) by nra.
  assert (Hkf : kb * eps <= / 10 ^ 8) by nra.
  assert (Hkf0 : 0 <= kb * eps) by nra.
  replace (a' * b' - a * b)
    with ((a' - a) * b + a * (b' - b) + (a' - a) * (b' - b)) by ring.
  assert (H1 : Rabs ((a' - a) * b) <= ka * eps * B).
  { rewrite Rabs_mult. apply Rmult_le_compat; try apply Rabs_pos; assumption. }
  assert (H2 : Rabs (a * (b' - b)) <= A * (kb * eps)).
  { rewrite Rabs_mult. apply Rmult_le_compat; try apply Rabs_pos; assumption. }
  assert (H3 : Rabs ((a' - a) * (b' - b)) <= (ka * eps) * (kb * eps)).
  { rewrite Rabs_mult. apply Rmult_le_compat; try apply Rabs_pos; assumption. }
  assert (H4 : ka * eps * (kb * eps) <= eps) by nra.
  eapply Rle_trans; [apply Rabs_triang |].
  eapply Rle_trans; [apply Rplus_le_compat_r; apply Rabs_triang |].
  lra.
Qed.

Lemma rel_to_abs (k X x x' : R) :
  0 <= x <= X -> 0 <= k ->
  Rabs (x' - x) <= k * eps * x -> Rabs (x' - x) <= k * X * eps.
Proof.
  intros Hx Hk H. eapply Rle_trans; [exact H |].
  replace (k * eps * x) with (k * eps * x) by ring.
  replace (k * X * eps) with (k * eps * X) by ring.
  apply Rmult_le_compat_l; [| lra].
  apply Rmult_le_pos; lra.
Qed.


(** The operations of [fl] on operands whose exact result is known up to a
    relative or an absolute error. *)
Lemma within_huge (k x z : R) :
  / 10 ^ 9 <= x <= 10 ^ 8 -> 0 <= k <= 10 ^ 6 ->
  Rabs (z - x) <= k * eps * x -> Rabs z <= huge.
Proof.
  intros Hx Hk Hz. apply le_huge.
  assert (Hx0 : 0 < x) by lra.
  pose proof (rel_pos k x z Hx0 Hk Hz) as Hz'.
  rewrite Rabs_pos_eq by lra. lra.
Qed.

Lemma within_huge_abs (k X x z : R) :
  Rabs x <= X -> X <= 10 ^ 8 -> 0 <= k <= 10 ^ 6 ->
  Rabs (z - x) <= k * eps -> Rabs z <= huge.
Proof.
  intros Hx HX Hk Hz. apply le_huge.
  assert (Hke : k * eps <= / 10 ^ 8) by nra.
  replace z with (x + (z - x)) by ring.
  eapply Rle_trans; [apply Rabs_triang |]. lra.
Qed.

Lemma rmul_rel (k a b x : R) :
  / 10 ^ 9 <= x <= 10 ^ 8 -> 0 <= k <= 10 ^ 6 ->
  Rabs (a * b - x) <= k * eps * x ->
  exists y, rmul fl (Fin a) (Fin b) = Fin y /\ Rabs (y - x) <= (k + 2) * eps * x.
Proof.
  intros Hx Hk Hz.
  destruct (acc_mul eps fl Hacc a b (within_huge k x _ Hx Hk Hz)) as (y & Ey & Hy).
  exists y. split; [exact Ey |]. apply (round_rel k x (a * b)); (lra || assumption).
Qed.

Lemma rdiv_rel (k a b x : R) :
  b <> 0 -> / 10 ^ 9 <= x <= 10 ^ 8 -> 0 <= k <= 10 ^ 6 ->
  Rabs (a / b - x) <= k * eps * x ->
  exists y, rdiv fl (Fin a) (Fin b) = Fin y /\ Rabs (y - x) <= (k + 2) * eps * x.
Proof.
  intros Hb Hx Hk Hz.
  destruct (acc_div eps fl Hacc a b Hb (within_huge k x _ Hx Hk Hz)) as (y & Ey & Hy).
  exists y. split.
  - cbn [rdiv]. rewrite (Reqb_false b 0) by assumption. exact Ey.
  - apply (round_rel k x (a / b)); (lra || assumption).
Qed.

Lemma rexp_rel (k a x : R) :
  / 10 ^ 9 <= x <= 10 ^ 8 -> 0 <= k <= 10 ^ 6 ->
  Rabs (exp a - x) <= k * eps * x ->
  exists y, rexp fl (Fin a) = Fin y /\ Rabs (y - x) <= (k + 2) * eps * x.
Proof.
  intros Hx Hk Hz.
  assert (Hh : exp a <= huge).
  { eapply Rle_trans; [apply Rle_abs |]. apply (within_huge k x _ Hx Hk Hz). }
  destruct (acc_exp eps fl Hacc a Hh) as (y & Ey & Hy).
  exists y. split; [exact Ey |]. apply (round_rel k x (exp a)); (lra || assumption).
Qed.

Lemma rpow_rel (k a b x : R) :
  0 < a -> / 10 ^ 9 <= x <= 10 ^ 8 -> 0 <= k <= 10 ^ 6 ->
  Rabs (Rpower a b - x) <= k * eps * x ->
  exists y, rpow fl (Fin a) (Fin b) = Fin y /\ Rabs (y - x) <= (k + 2) * eps * x.
Proof.
  intros Ha Hx Hk Hz.
  unfold rpow. cbn [pow_with].
  destruct (Req_dec_T b 0) as [-> | Hb].
  - rewrite Reqb_true by reflexivity. exists 1. split; [reflexivity |].
    rewrite Rpower_O in Hz by assumption.
    eapply Rle_trans; [exact Hz |].
    apply Rmult_le_compat_r; [lra |]. apply Rmult_le_compat_r; lra.
  - rewrite (Reqb_false b 0), (Rltb_true 0 a) by assumption.
    assert (Hh : Rpower a b <= huge).
    { eapply Rle_trans; [apply Rle_abs |]. apply (within_huge k x _ Hx Hk Hz). }
    destruct (acc_np_pow eps fl Hacc a b Ha Hh) as (y & Ey & Hy).
    exists y. split; [exact Ey |].
    apply (round_rel k x (Rpower a b)); (lra || assumption).
Qed.

Lemma py_rpow_rel (k a b x : R) :
  0 < a -> / 10 ^ 9 <= x <= 10 ^ 8 -> 0 <= k <= 10 ^ 6 ->
  Rabs (Rpower a b - x) <= k * eps * x ->
  exists y, py_rpow fl (Fin a) (Fin b) = Ok (Fin y) /\
            Rabs (y - x) <= (k + 2) * eps * x.
Proof.
  intros Ha Hx Hk Hz.
  unfold py_rpow.
  replace (F64.eqb (Fin a) (Fin 0)) with false
    by (symmetry; apply Reqb_false; lra).
  cbn [andb pow_with].
  destruct (Req_dec_T b 0) as [-> | Hb].
  - rewrite Reqb_true by reflexivity. exists 1. split; [reflexivity |].
    rewrite Rpower_O in Hz by assumption.
    eapply Rle_trans; [exact Hz |].
    apply Rmult_le_compat_r; [lra |]. apply Rmult_le_compat_r; lra.
  - rewrite (Reqb_false b 0), (Rltb_true 0 a) by assumption.
    assert (Hh : Rpower a b <= huge).
    { eapply Rle_trans; [apply Rle_abs |]. apply (within_huge k x _ Hx Hk Hz). }
    destruct (acc_fl_pow eps fl Hacc a b Ha Hh) as (y & Ey & Hy).
    exists y. rewrite Ey. split; [reflexivity |].
    apply (round_rel k x (Rpower a b)); (lra || assumption).
Qed.

Lemma radd_abs (k X a b x : R) :
  Rabs x <= X -> X <= 10 ^ 8 -> 0 <= k <= 10 ^ 6 ->
  Rabs (a + b - x) <= k * eps ->
  exists y, radd fl (Fin a) (Fin b) = Fin y /\ Rabs (y - x) <= (k + X + 1) * eps.
Proof.
  intros Hx HX Hk Hz.
  destruct (acc_add eps fl Hacc a b (within_huge_abs k X x _ Hx HX Hk Hz))
    as (y & Ey & Hy).
  exists y. split; [exact Ey |]. apply (round_abs k X x (a + b)); (lra || assumption).
Qed.

Lemma rmul_abs (k X a b x : R) :
  Rabs x <= X -> X <= 10 ^ 8 -> 0 <= k <= 10 ^ 6 ->
  Rabs (a * b - x) <= k * eps ->
  exists y, rmul fl (Fin a) (Fin b) = Fin y /\ Rabs (y - x) <= (k + X + 1) * eps.
Proof.
  intros Hx HX Hk Hz.
  destruct (acc_mul eps fl Hacc a b (within_huge_abs k X x _ Hx HX Hk Hz))
    as (y & Ey & Hy).
  exists y. split; [exact Ey |]. apply (round_abs k X x (a * b)); (lra || assumption).
Qed.

Lemma rlog_abs (k X a x : R) :
  0 < a -> Rabs x <= X -> 0 <= k <= 10 ^ 6 ->
  Rabs (ln a - x) <= k * eps ->
  exists y, rlog fl (Fin a) = Fin y /\ Rabs (y - x) <= (k + X + 1) * eps.
Proof.
  intros Ha Hx Hk Hz.
  destruct (acc_log eps fl Hacc a Ha) as (y & Ey & Hy).
  exists y. split.
  - cbn [rlog]. rewrite (Rltb_true 0 a) by assumption. exact Ey.
  - apply (round_abs k X x (ln a)); (lra || assumption).
Qed.

(** A relative error of nothing. *)
Lemma rel_refl (x : R) : 0 <= x -> Rabs (x - x) <= 0 * eps * x.
Proof. intros Hx. replace (x - x) with 0 by ring. rewrite Rabs_R0. lra. Qed.

Lemma abs_refl (x : R) : Rabs (x - x) <= 0 * eps.
Proof. replace (x - x) with 0 by ring. rewrite Rabs_R0. lra. Qed.


(** *** The central frequency *)

Section Box.

Variables b g s : R.
Hypothesis Hb : 1 / 10 <= b <= 23.
Hypothesis Hg : 1 <= g <= 7 / 2.
Hypothesis Hs : 1 / 10 <= s <= 100.

Lemma box_q : 1 / 35 <= b / g <= 23.
Proof.
  assert (E : b / g * g = b) by (field; lra).
  assert (0 < b / g) by (apply div_pos; lra).
  split; nra.
Qed.

Lemma box_e : 2 / 7 <= 1 / g <= 1.
Proof.
  assert (E : 1 / g * g = 1) by (field; lra).
  assert (0 < 1 / g) by (apply div_pos; lra).
  split; nra.
Qed.

Lemma box_gb : 1 / 23 <= g / b <= 35.
Proof.
  assert (E : g / b * b = g) by (field; lra).
  assert (0 < g / b) by (apply div_pos; lra).
  split; nra.
Qed.

Lemma box_2s : 1 / 50 <= 2 / s <= 20.
Proof.
  assert (E : 2 / s * s = 2) by (field; lra).
  assert (0 < 2 / s) by (apply div_pos; lra).
  split; nra.
Qed.

(** The power of line 81 lies between [beta / gamma] and 1. *)
Lemma box_P : 1 / 35 <= Rpower (b / g) (1 / g) <= 23.
Proof.
  pose proof box_q as Hq. pose proof box_e as He.
  assert (Hq0 : 0 < b / g) by lra.
  assert (Eq : exp (ln (b / g)) = b / g) by (apply exp_ln; assumption).
  unfold Rpower.
  destruct (Rle_dec 0 (ln (b / g))) as [Hl | Hl].
  - assert (H1 : 0 <= 1 / g * ln (b / g) <= ln (b / g)) by nra.
    pose proof (exp_le_mono _ _ (proj1 H1)) as Ha.
    pose proof (exp_le_mono _ _ (proj2 H1)) as Hb'.
    rewrite exp_0 in Ha. lra.
  - assert (H1 : ln (b / g) <= 1 / g * ln (b / g) <= 0) by nra.
    pose proof (exp_le_mono _ _ (proj1 H1)) as Ha.
    pose proof (exp_le_mono _ _ (proj2 H1)) as Hb'.
    rewrite exp_0 in Hb'. lra.
Qed.

Lemma box_ln_P : ln (Rpower (b / g) (1 / g)) = 1 / g * ln (b / g).
Proof. unfold Rpower. apply ln_exp. Qed.

Lemma box_P_pow : Rpower (Rpower (b / g) (1 / g)) g = b / g.
Proof.
  pose proof box_q.
  rewrite Rpower_mult. replace (1 / g * g) with 1 by (field; lra).
  apply Rpower_1. lra.
Qed.

(** [beta / gamma], as Python computes it in both methods. *)
Lemma box_q_fl :
  exists q', py_rdiv fl (Fin b) (Fin g) = Ok (Fin q') /\
             Rabs (q' - b / g) <= 2 * eps * (b / g).
Proof.
  pose proof box_q as Hq.
  destruct (rdiv_rel 0 b g (b / g)) as (q' & Eq & Hq'); try lra.
  { apply rel_refl. lra. }
  exists q'. unfold py_rdiv. rewrite (Reqb_false g 0), Eq by lra.
  split; [reflexivity |]. replace 2 with (0 + 2) by ring. exact Hq'.
Qed.

(** The power [(beta / gamma) ** (1 / gamma)] up to rounding. *)
Lemma central_freq_base_fl_near (n : string) :
  exists P',
    central_freq_base_fl fl (mkMorseWavelet (Fin b) (Fin g) n) = Ok (Fin P') /\
    Rabs (P' - Rpower (b / g) (1 / g)) <= 17 * eps * Rpower (b / g) (1 / g).
Proof.
  pose proof box_q as Hq. pose proof box_e as He. pose proof box_P as HP.
  destruct box_q_fl as (q' & Eq & Hq').
  destruct (rdiv_rel 0 1 g (1 / g)) as (e' & Ee & He'); try lra.
  { apply rel_refl. lra. }
  replace ((0 + 2) * eps * (1 / g)) with (2 * eps * (1 / g)) in He' by ring.
  assert (Hq'0 : b / g / 2 <= q' <= 2 * (b / g))
    by (apply (rel_pos 2); (lra || assumption)).
  assert (He'0 : 1 / g / 2 <= e' <= 2 * (1 / g))
    by (apply (rel_pos 2); (lra || assumption)).
  assert (Hlq : -5 <= ln (b / g) <= 5) by (apply ln_bound; lra).
  (* the exponent of the exact power of the rounded operands *)
  assert (Hd : Rabs (e' * ln q' - 1 / g * ln (b / g)) <= 14 * eps).
  { replace (14 * eps) with ((2 * 5 + 3 * 1 + 1) * eps) by ring.
    apply mul_abs; try lra.
    - apply Rabs_le_iff. lra.
    - apply Rabs_le_iff. lra.
    - replace (2 * eps) with (2 * 1 * eps) by ring.
      apply (rel_to_abs 2 1 (1 / g)); (lra || assumption).
    - replace 3 with (2 + 1) by ring. apply ln_rel; (lra || assumption). }
  assert (HP0 : Rabs (Rpower q' e' - Rpower (b / g) (1 / g))
                <= 15 * eps * Rpower (b / g) (1 / g)).
  { unfold Rpower. replace 15 with (14 + 1) by ring. apply exp_rel; [lra | exact Hd]. }
  destruct (py_rpow_rel 15 q' e' (Rpower (b / g) (1 / g))) as (P' & EP & HP');
    try lra; try assumption.
  exists P'. unfold central_freq_base_fl. cbn [beta gamma].
  rewrite Eq. cbn [bind]. unfold py_rdiv at 1.
  rewrite (Reqb_false g 0), Ee by lra. cbn [bind].
  rewrite EP. split; [reflexivity |].
  replace 17 with (15 + 2) by ring. exact HP'.
Qed.

(** [central_freq] is the closed form up to rounding. *)
Lemma central_freq_fl_near (n : string) :
  exists fc,
    central_freq_fl fl (mkMorseWavelet (Fin b) (Fin g) n) (PyFloat (Fin s))
    = Ok (Fin fc) /\
    Rabs (fc - Rpower (b / g) (1 / g) / s * (1 / 2) / PI)
    <= 26 * eps * (Rpower (b / g) (1 / g) / s * (1 / 2) / PI).
Proof.
  pose proof box_P as HP. pose proof PI_bounds as Hpi.
  pose proof (acc_pi eps fl Hacc) as Hpi'.
  destruct (central_freq_base_fl_near n) as (P' & EP & HP').
  set (P := Rpower (b / g) (1 / g)) in *.
  assert (Hd1 : 1 / 3500 <= P / s <= 230).
  { assert (E : P / s * s = P) by (field; lra).
    assert (0 < P / s) by (apply div_pos; lra). split; nra. }
  assert (Z1 : Rabs (P' / s - P / s) <= 17 * eps * (P / s)).
  { unfold Rdiv. apply scale_rel; [| exact HP'].
    left. apply Rinv_0_lt_compat. lra. }
  destruct (rdiv_rel 17 P' s (P / s) ltac:(lra) ltac:(lra) ltac:(lra) Z1)
    as (d1 & E1 & H1).
  assert (Z2 : Rabs (d1 * (1 / 2) - P / s * (1 / 2))
               <= (17 + 2) * eps * (P / s * (1 / 2))).
  { apply scale_rel; [lra | exact H1]. }
  destruct (rmul_rel (17 + 2) d1 (1 / 2) (P / s * (1 / 2))
              ltac:(lra) ltac:(lra) Z2) as (d2 & E2 & H2).
  assert (Hpi'' : Rabs (np_pi fl - PI) <= 1 * eps * PI) by lra.
  assert (Hpi0 : PI / 2 <= np_pi fl <= 2 * PI)
    by (apply (rel_pos 1); (lra || assumption)).
  assert (Hcf : 1 / 28000 <= P / s * (1 / 2) / PI <= 230).
  { assert (E : P / s * (1 / 2) / PI * PI = P / s * (1 / 2)) by (field; lra).
    assert (0 < P / s * (1 / 2) / PI) by (apply div_pos; lra).
    split; nra. }
  assert (Z3 : Rabs (d2 / np_pi fl - P / s * (1 / 2) / PI)
               <= (17 + 2 + 2 + 1 + 2) * eps * (P / s * (1 / 2) / PI)).
  { apply div_rel; try lra; assumption. }
  destruct (rdiv_rel (17 + 2 + 2 + 1 + 2) d2 (np_pi fl) (P / s * (1 / 2) / PI)
              ltac:(lra) ltac:(lra) ltac:(lra) Z3) as (fc & E3 & H3).
  exists fc. unfold central_freq_fl. rewrite EP. cbn [bind rtruediv].
  unfold py_rdiv. rewrite (Reqb_false s 0), E1 by lra. cbn [bind].
  rewrite E2, E3. split; [reflexivity |].
  replace 26 with (17 + 2 + 2 + 1 + 2 + 2) by ring. exact H3.
Qed.

(** *** The base wavelet at a rounding of the central frequency *)

Lemma psi_f_r_fl_near (n : string) :
  exists r',
    psi_f_r_fl fl (mkMorseWavelet (Fin b) (Fin g) n) = Ok (Fin r') /\
    1 / 10 <= r' <= 100.
Proof.
  destruct (rmul_rel 0 2 b (2 * b) ltac:(lra) ltac:(lra) (rel_refl (2 * b) ltac:(lra)))
    as (tb & Etb & Htb).
  assert (Z0 : Rabs (tb + 1 - (2 * b + 1)) <= 2 * 46 * eps).
  { replace (tb + 1 - (2 * b + 1)) with (tb - 2 * b) by ring.
    pose proof (rel_to_abs (0 + 2) 46 (2 * b) tb ltac:(lra) ltac:(lra) Htb).
    lra. }
  assert (Hx0 : Rabs (2 * b + 1) <= 47) by (apply Rabs_le_iff; lra).
  destruct (radd_abs (2 * 46) 47 tb 1 (2 * b + 1) Hx0 ltac:(lra) ltac:(lra) Z0)
    as (r0 & Er0 & Hr0).
  apply Rabs_le_iff in Hr0.
  assert (Hr0' : 11 / 10 <= r0 <= 48) by nra.
  assert (Hq : 11 / 35 <= r0 / g <= 48).
  { assert (E : r0 / g * g = r0) by (field; lra).
    assert (0 < r0 / g) by (apply div_pos; lra). split; nra. }
  destruct (rdiv_rel 0 r0 g (r0 / g) ltac:(lra) ltac:(lra) ltac:(lra)
              (rel_refl (r0 / g) ltac:(lra))) as (r' & Er & Hr).
  pose proof (rel_pos (0 + 2) (r0 / g) r' ltac:(lra) ltac:(lra) Hr) as Hr'.
  exists r'. unfold psi_f_r_fl. cbn [beta gamma]. rewrite Etb, Er0.
  unfold py_rdiv. rewrite (Reqb_false g 0), Er by lra.
  split; [reflexivity | lra].
Qed.

(** The logarithm of the analytic constant up to rounding. *)
Lemma psi_f_logA_fl_near (r : float64) (k : nat) :
  exists la,
    psi_f_logA_fl fl (mkMorseWavelet (Fin b) (Fin g) "analytic") r
                  (PyFloat (Fin s)) k = Ok (Fin la) /\
    Rabs (la - (ln (2 / s) + b / g * (1 + ln (g / b)))) <= 937 * eps.
Proof.
  pose proof box_q as Hq. pose proof box_gb as Hgb. pose proof box_2s as H2s.
  assert (Hl1 : -5 <= ln (2 / s) <= 5) by (apply ln_bound; lra).
  assert (Hl2 : -5 <= ln (g / b) <= 5) by (apply ln_bound; lra).
  (* 2 / scale and its logarithm *)
  destruct (rdiv_rel 0 2 s (2 / s) ltac:(lra) ltac:(lra) ltac:(lra)
              (rel_refl (2 / s) ltac:(lra))) as (a1 & Ea1 & Ha1).
  pose proof (rel_pos (0 + 2) (2 / s) a1 ltac:(lra) ltac:(lra) Ha1) as Ha1'.
  pose proof (ln_rel (0 + 2) (2 / s) a1 ltac:(lra) ltac:(lra) Ha1) as Hln1.
  destruct (rlog_abs (0 + 2 + 1) 5 a1 (ln (2 / s)) ltac:(lra)
              ltac:(apply Rabs_le_iff; lra) ltac:(lra) Hln1) as (l1 & El1 & Hl1').
  (* beta / gamma *)
  destruct box_q_fl as (q' & Eq & Hq').
  (* gamma / beta and its logarithm *)
  destruct (rdiv_rel 0 g b (g / b) ltac:(lra) ltac:(lra) ltac:(lra)
              (rel_refl (g / b) ltac:(lra))) as (gb & Egb & Hgb').
  pose proof (rel_pos (0 + 2) (g / b) gb ltac:(lra) ltac:(lra) Hgb') as Hgb0.
  pose proof (ln_rel (0 + 2) (g / b) gb ltac:(lra) ltac:(lra) Hgb') as Hln2.
  destruct (rlog_abs (0 + 2 + 1) 5 gb (ln (g / b)) ltac:(lra)
              ltac:(apply Rabs_le_iff; lra) ltac:(lra) Hln2) as (l2 & El2 & Hl2').
  (* 1 + log (gamma / beta) *)
  assert (Zv : Rabs (1 + l2 - (1 + ln (g / b))) <= (0 + 2 + 1 + 5 + 1) * eps).
  { replace (1 + l2 - (1 + ln (g / b))) with (l2 - ln (g / b)) by ring. lra. }
  destruct (radd_abs (0 + 2 + 1 + 5 + 1) 6 1 l2 (1 + ln (g / b))
              ltac:(apply Rabs_le_iff; lra) ltac:(lra) ltac:(lra) Zv)
    as (v & Ev & Hv).
  (* the product *)
  assert (Zt : Rabs (q' * v - b / g * (1 + ln (g / b)))
               <= (2 * 23 * 6 + 16 * 23 + 1) * eps).
  { pose proof (rel_to_abs 2 23 (b / g) q' ltac:(lra) ltac:(lra) Hq') as Hqa.
    pose proof (mul_abs (2 * 23) 16 23 6 (b / g) q' (1 + ln (g / b)) v
                  ltac:(apply Rabs_le_iff; lra) ltac:(apply Rabs_le_iff; lra)
                  ltac:(lra) ltac:(lra) ltac:(lra) ltac:(lra)) as Hm.
    lra. }
  assert (Hxt : Rabs (b / g * (1 + ln (g / b))) <= 138).
  { rewrite Rabs_mult. replace 138 with (23 * 6) by ring.
    apply Rmult_le_compat; try apply Rabs_pos; apply Rabs_le_iff; lra. }
  destruct (rmul_abs (2 * 23 * 6 + 16 * 23 + 1) 138 q' v (b / g * (1 + ln (g / b)))
              Hxt ltac:(lra) ltac:(lra) Zt) as (t & Et & Ht).
  (* the sum *)
  assert (Zla : Rabs (l1 + t - (ln (2 / s) + b / g * (1 + ln (g / b))))
                <= (9 + 784) * eps).
  { replace (l1 + t - (ln (2 / s) + b / g * (1 + ln (g / b))))
      with ((l1 - ln (2 / s)) + (t - b / g * (1 + ln (g / b)))) by ring.
    eapply Rle_trans; [apply Rabs_triang |]. lra. }
  assert (Hxla : Rabs (ln (2 / s) + b / g * (1 + ln (g / b))) <= 143).
  { eapply Rle_trans; [apply Rabs_triang |].
    assert (Rabs (ln (2 / s)) <= 5) by (apply Rabs_le_iff; lra). lra. }
  destruct (radd_abs (9 + 784) 143 l1 t _ Hxla ltac:(lra) ltac:(lra) Zla)
    as (la & Ela & Hla).
  exists la. unfold psi_f_logA_fl. cbn [norm beta gamma String.eqb Ascii.eqb Bool.eqb].
  cbn [rtruediv]. unfold py_rdiv at 1. rewrite (Reqb_false s 0), Ea1 by lra.
  cbn [bind]. rewrite Eq. cbn [bind].
  unfold py_rdiv. rewrite (Reqb_false b 0), Egb by lra. cbn [bind].
  rewrite El1, El2, Ev, Et, Ela.
  split; [reflexivity |]. eapply Rle_trans; [exact Hla |]. lra.
Qed.

(** The value of [psi_f], order 0, at a frequency within the rounding
    error of the central frequency. *)
Lemma psi_f_at_fl_near (n : string) (r' la fc : R) :
  1 / 10 <= r' <= 100 ->
  Rabs (la - (ln (2 / s) + b / g * (1 + ln (g / b)))) <= 937 * eps ->
  Rabs (fc - Rpower (b / g) (1 / g) / s * (1 / 2) / PI)
  <= 26 * eps * (Rpower (b / g) (1 / g) / s * (1 / 2) / PI) ->
  exists y,
    psi_f_at_fl fl (mkMorseWavelet (Fin b) (Fin g) n) (Fin r') (Fin la)
                (Fin s) 0 (Fin fc) = Fin y /\
    Rabs (y - 2) <= 10338 * eps.
Proof.
  intros Hr' Hla Hfc.
  pose proof box_q as Hq. pose proof box_P as HP. pose proof box_2s as H2s.
  pose proof box_gb as Hgb. pose proof PI_bounds as Hpi.
  pose proof (acc_pi eps fl Hacc) as Hpi'.
  pose proof box_ln_P as HlnP. pose proof box_P_pow as HPg.
  assert (Hlq : -5 <= ln (b / g) <= 5) by (apply ln_bound; lra).
  assert (Hl1 : -5 <= ln (2 / s) <= 5) by (apply ln_bound; lra).
  assert (Hl2 : ln (g / b) = - ln (b / g)).
  { replace (g / b) with (/ (b / g)) by (field; lra). apply ln_Rinv. lra. }
  set (P := Rpower (b / g) (1 / g)) in *.
  set (cf := P / s * (1 / 2) / PI) in *.
  assert (HlP : -5 <= ln P <= 5) by (apply ln_bound; lra).
  assert (Hcf : 1 / 28000 <= cf <= 230).
  { assert (Hd : 3 / 10 <= s * PI <= 400) by nra.
    assert (E : cf * (s * PI) = P * (1 / 2)) by (unfold cf; field; lra).
    assert (0 < cf) by (unfold cf; apply div_pos; [apply Rmult_lt_0_compat;
                         [apply div_pos |] |]; lra).
    clearbody cf. set (d := s * PI) in *. clearbody d.
    split; nra. }
  assert (Eaw : s * 2 * PI * cf = P) by (unfold cf; field; lra).
  (* aw = scale * 2 * pi * freq *)
  destruct (rmul_rel 0 s 2 (s * 2) ltac:(lra) ltac:(lra) (rel_refl (s * 2) ltac:(lra)))
    as (t1 & Et1 & Ht1).
  assert (Z2 : Rabs (t1 * np_pi fl - s * 2 * PI) <= (2 + 1 + 1) * eps * (s * 2 * PI)).
  { apply mul_rel; lra. }
  assert (Hx2 : 3 / 5 <= s * 2 * PI <= 800) by nra.
  destruct (rmul_rel (2 + 1 + 1) t1 (np_pi fl) (s * 2 * PI)
              ltac:(lra) ltac:(lra) Z2) as (t2 & Et2 & Ht2).
  assert (Z3 : Rabs (t2 * fc - P) <= (6 + 26 + 1) * eps * P).
  { rewrite <- Eaw. apply mul_rel; lra. }
  destruct (rmul_rel (6 + 26 + 1) t2 fc P ltac:(lra) ltac:(lra) Z3)
    as (aw & Eaw' & Haw).
  pose proof (rel_pos 35 P aw ltac:(lra) ltac:(lra) ltac:(lra)) as Haw0.
  (* aw ** gamma *)
  pose proof (ln_rel 35 P aw ltac:(lra) ltac:(lra) ltac:(lra)) as Hlnaw.
  assert (Zu0 : Rabs (g * ln aw - g * ln P) <= 126 * eps).
  { replace (g * ln aw - g * ln P) with (g * (ln aw - ln P)) by ring.
    rewrite Rabs_mult, (Rabs_pos_eq g) by lra.
    assert (0 <= Rabs (ln aw - ln P)) by apply Rabs_pos. nra. }
  assert (Zu : Rabs (Rpower aw g - b / g) <= (126 + 1) * eps * (b / g)).
  { rewrite <- HPg at 1 2. unfold Rpower at 1 3. apply exp_rel; lra. }
  destruct (rpow_rel (126 + 1) aw g (b / g) ltac:(lra) ltac:(lra) ltac:(lra) Zu)
    as (u & Eu & Hu).
  pose proof (rel_to_abs (126 + 1 + 2) 23 (b / g) u ltac:(lra) ltac:(lra) Hu) as Hua.
  pose proof (rel_pos (126 + 1 + 2) (b / g) u ltac:(lra) ltac:(lra) Hu) as Hu0.
  (* beta * log aw *)
  destruct (rlog_abs 36 5 aw (ln P) ltac:(lra) ltac:(apply Rabs_le_iff; lra)
              ltac:(lra) ltac:(lra)) as (L & EL & HL).
  assert (ZbL : Rabs (b * L - b * ln P) <= 966 * eps).
  { replace (b * L - b * ln P) with (b * (L - ln P)) by ring.
    rewrite Rabs_mult, (Rabs_pos_eq b) by lra.
    assert (0 <= Rabs (L - ln P)) by apply Rabs_pos. nra. }
  assert (HxbL : Rabs (b * ln P) <= 115).
  { rewrite Rabs_mult, (Rabs_pos_eq b) by lra.
    assert (Rabs (ln P) <= 5) by (apply Rabs_le_iff; lra).
    assert (0 <= Rabs (ln P)) by apply Rabs_pos. nra. }
  destruct (rmul_abs 966 115 b L (b * ln P) HxbL ltac:(lra) ltac:(lra) ZbL)
    as (bL & EbL & HbL).
  (* logA - aw ** gamma *)
  set (lA := ln (2 / s) + b / g * (1 + ln (g / b))) in *.
  assert (HxlA : Rabs lA <= 143).
  { unfold lA. eapply Rle_trans; [apply Rabs_triang |].
    assert (Rabs (ln (2 / s)) <= 5) by (apply Rabs_le_iff; lra).
    assert (Rabs (b / g * (1 + ln (g / b))) <= 138); [| lra].
    rewrite Rabs_mult. replace 138 with (23 * 6) by ring.
    apply Rmult_le_compat; try apply Rabs_pos; apply Rabs_le_iff; lra. }
  assert (Zw : Rabs (la + - u - (lA - b / g)) <= (937 + 2967) * eps).
  { replace (la + - u - (lA - b / g)) with ((la - lA) + - (u - b / g)) by ring.
    eapply Rle_trans; [apply Rabs_triang |]. rewrite Rabs_Ropp. lra. }
  assert (Hxw : Rabs (lA - b / g) <= 166).
  { replace (lA - b / g) with (lA + - (b / g)) by ring.
    eapply Rle_trans; [apply Rabs_triang |]. rewrite Rabs_Ropp.
    assert (Rabs (b / g) <= 23) by (apply Rabs_le_iff; lra). lra. }
  destruct (radd_abs (937 + 2967) 166 la (- u) (lA - b / g) Hxw
              ltac:(lra) ltac:(lra) Zw) as (w1 & Ew1 & Hw1).
  (* the exponent: it is log (2 / scale) *)
  assert (EE : lA - b / g + b * ln P = ln (2 / s)).
  { unfold lA. rewrite HlnP, Hl2. field. lra. }
  assert (ZE : Rabs (w1 + bL - ln (2 / s)) <= (4071 + 1082) * eps).
  { rewrite <- EE.
    replace (w1 + bL - (lA - b / g + b * ln P))
      with ((w1 - (lA - b / g)) + (bL - b * ln P)) by ring.
    eapply Rle_trans; [apply Rabs_triang |]. lra. }
  destruct (radd_abs (4071 + 1082) 5 w1 bL (ln (2 / s))
              ltac:(apply Rabs_le_iff; lra) ltac:(lra) ltac:(lra) ZE)
    as (E' & EE' & HE').
  (* exp, and the product with scale * H *)
  assert (ZX : Rabs (exp E' - 2 / s) <= (5159 + 1) * eps * (2 / s)).
  { rewrite <- (exp_ln (2 / s)) at 1 2 by lra. apply exp_rel; lra. }
  destruct (rexp_rel (5159 + 1) E' (2 / s) ltac:(lra) ltac:(lra) ZX)
    as (X & EX & HX).
  destruct (rmul_rel 0 s 1 (s * 1) ltac:(lra) ltac:(lra) (rel_refl (s * 1) ltac:(lra)))
    as (sH & EsH & HsH).
  assert (Es2 : s * 1 * (2 / s) = 2) by (field; lra).
  assert (Zwav : Rabs (sH * X - 2) <= (2 + 5162 + 1) * eps * 2).
  { pose proof (mul_rel 2 5162 (s * 1) sH (2 / s) X ltac:(lra) ltac:(lra)
                  ltac:(lra) ltac:(lra) ltac:(lra) ltac:(lra)) as Hm.
    rewrite Es2 in Hm. lra. }
  destruct (rmul_rel (2 + 5162 + 1) sH X 2 ltac:(lra) ltac:(lra) Zwav)
    as (wav & Ewav & Hwav).
  (* the Laguerre factor: 1 *)
  assert (Zal : Rabs (r' + Ropp 1 - (r' - 1)) <= 0 * eps).
  { replace (r' + Ropp 1 - (r' - 1)) with 0 by ring. rewrite Rabs_R0. lra. }
  destruct (radd_abs 0 99 r' (Ropp 1) (r' - 1) ltac:(apply Rabs_le_iff; lra)
              ltac:(lra) ltac:(lra) Zal) as (al & Eal & Hal).
  apply Rabs_le_iff in Hal.
  assert (Hal0 : -1 < al) by nra.
  destruct (rmul_rel 0 2 u (2 * u) ltac:(lra) ltac:(lra) (rel_refl (2 * u) ltac:(lra)))
    as (x2 & Ex2 & _).
  assert (Zy : Rabs (wav * 1 - 2) <= 5167 * eps * 2).
  { replace (wav * 1) with wav by ring. lra. }
  destruct (rmul_rel 5167 wav 1 2 ltac:(lra) ltac:(lra) Zy) as (y & Ey & Hy).
  exists y. split.
  - unfold psi_f_at_fl. cbn [beta gamma].
    rewrite Et1, Et2, Eaw'. unfold heaviside.
    rewrite (Rltb_false aw 0), (Reqb_false aw 0) by lra.
    rewrite Eu, EL, EbL. unfold rsub. cbn [F64.neg].
    rewrite Ew1, EE', EX, EsH, Ewav. cbn [isnan].
    rewrite Eal, Ex2.
    unfold eval_genlaguerre_fl, F64.le, F64.lt, F64.eqb.
    rewrite (Rltb_false al (-1)), (Reqb_false al (-1)) by lra.
    cbn [orb isnan]. exact Ey.
  - lra.
Qed.

End Box.

End Rounding.

(** C1 (amended). With the analytic norm and parameters in the ranges of
    the repository's tests ([beta] in [0.1, 23], [gamma] in [1, 3.5],
    [scale] in [0.1, 100]), in binary64 arithmetic whose operations have a
    relative error of at most [eps <= 1e-15] (four units in the last
    place): [central_freq(scale)] returns a number, and the base wavelet
    ([k = 0]) evaluated there returns a number within [10338 * eps], so
    within 1e-10, of 2. *)
Theorem analytic_peak_near_2 (fl : arith) (eps b g s : R) :
  accurate eps fl -> 0 <= eps -> eps <= / 10 ^ 15 ->
  1 / 10 <= b <= 23 -> 1 <= g <= 7 / 2 -> 1 / 10 <= s <= 100 ->
  exists fc y,
    central_freq_fl fl (mkMorseWavelet (Fin b) (Fin g) "analytic")
                    (PyFloat (Fin s)) = Ok (Fin fc) /\
    psi_f_fl fl (mkMorseWavelet (Fin b) (Fin g) "analytic")
             (Array [Fin fc]) (PyFloat (Fin s)) 0 = Ok (Array [Fin y]) /\
    Rabs (y - 2) <= 10338 * eps /\
    Rabs (y - 2) <= / 10 ^ 10.
Proof.
  intros Hacc He0 He1 Hb Hg Hs.
  destruct (central_freq_fl_near fl eps Hacc He0 He1 b g s Hb Hg Hs "analytic"%string)
    as (fc & Efc & Hfc).
  destruct (psi_f_r_fl_near fl eps Hacc He0 He1 b g s Hb Hg Hs "analytic"%string)
    as (r' & Er & Hr).
  destruct (psi_f_logA_fl_near fl eps Hacc He0 He1 b g s Hb Hg Hs (Fin r') 0)
    as (la & Ela & Hla).
  destruct (psi_f_at_fl_near fl eps Hacc He0 He1 b g s Hb Hg Hs "analytic"%string
              r' la fc Hr Hla Hfc) as (y & Ey & Hy).
  exists fc, y. split; [exact Efc |]. split.
  - unfold psi_f_fl. rewrite Er. cbn [bind]. rewrite Ela.
    cbn [bind operand_map map sval]. rewrite Ey. reflexivity.
  - split; [exact Hy | lra].
Qed.

End Wavelets.

(** * The theorems at concrete inputs *)

(** In this part [loggamma] is instantiated with the constant 0, which is
    the logarithm of Gamma at 1, the only argument these inputs pass. *)

Lemma gt_Fin_0 (x : R) : 0 < x -> F64.gt (Fin x) (Fin 0) = true.
Proof. intros H. unfold F64.gt, F64.lt. apply Rltb_true. assumption. Qed.

Lemma init_8_3 :
  init (Fin 8) (Fin 3) "analytic" = Ok (mkMorseWavelet (Fin 8) (Fin 3) "analytic").
Proof. apply init_ok; [apply gt_Fin_0; lra | apply gt_Fin_0; lra | left; reflexivity]. Qed.

(** With the default parameters the power of [central_freq] is between 1
    and 8/3, well within the floats. *)
Lemma power_8_3_in_range :
  float_underflow < Rpower (8 / 3) (1 / 3) /\ Rpower (8 / 3) (1 / 3) < float_overflow.
Proof.
  destruct (power_between (8 / 3) (1 / 3)) as [Hlo Hhi]; try lra.
  unfold float_underflow, float_overflow. split; lra.
Qed.

Lemma central_freq_base_8_3 (n : string) :
  central_freq_base (mkMorseWavelet (Fin 8) (Fin 3) n)
  = Ok (Fin (Rpower (8 / 3) (1 / 3))).
Proof.
  destruct power_8_3_in_range. apply central_freq_base_pos; (lra || assumption).
Qed.


Lemma Gamma_integral_r_1_3 :
  Gamma_integral (r_real 1 3) (exp ((fun _ : R => 0) (r_real 1 3))).
Proof.
  replace (r_real 1 3) with 1 by (unfold r_real; field).
  simpl. rewrite exp_0. apply Gamma_integral_1.
Qed.

Lemma Gamma_integral_const_1 : Gamma_integral 1 (exp ((fun _ : R => 0) 1)).
Proof. simpl. rewrite exp_0. apply Gamma_integral_1. Qed.

Lemma energy_norm_is_1_witness :
  0 < 1 /\ 0 < 3 /\
  integral_0_inf
    (fun f => (psi_f_real (fun _ => 0) (mkMorseWavelet (Fin 1) (Fin 3) "energy") 1 0 f)²)
    1.
Proof.
  split; [lra |]. split; [lra |].
  apply (energy_norm_is_1 (fun _ => 0) 1 3 1);
    [lra | lra | lra | apply Gamma_integral_const_1 | apply Gamma_integral_r_1_3].
Defined.

Lemma init_validation_witness :
  (exists msg, init (Fin 0) (Fin 3) "analytic" = Raise (ValueError msg)) /\
  (exists msg, init (Fin 8) (Fin 0) "analytic" = Raise (ValueError msg)) /\
  (exists msg, init (Fin (-1)) (Fin 3) "analytic" = Raise (ValueError msg)) /\
  (exists msg, init (Fin 8) (Fin 3) "invalid" = Raise (ValueError msg)) /\
  init (Fin 8) (Fin 3) "energy" = Ok (mkMorseWavelet (Fin 8) (Fin 3) "energy").
Proof.
  split; [| split; [| split; [| split]]].
  - apply (proj1 (init_validation (Fin 0) (Fin 3) "analytic")).
    left. apply le_Fin_0. lra.
  - apply (proj1 (init_validation (Fin 8) (Fin 0) "analytic")).
    right; left. apply le_Fin_0. lra.
  - apply (proj1 (init_validation (Fin (-1)) (Fin 3) "analytic")).
    left. apply le_Fin_0. lra.
  - apply (proj1 (init_validation (Fin 8) (Fin 3) "invalid")).
    right; right. split; discriminate.
  - apply (proj2 (init_validation (Fin 8) (Fin 3) "energy"));
      [apply gt_Fin_0; lra | apply gt_Fin_0; lra | right; reflexivity].
Defined.


Lemma evaluate_errors_witness :
  (forall sc, sc <> PyFloat (Fin 0) ->
     returns (psi_f (fun _ => 0) (mkMorseWavelet (Fin 8) (Fin 3) "analytic")
                    (Array [Fin 1]) sc 2)) /\
  psi_f (fun _ => 0) (mkMorseWavelet (Fin 8) (Fin 3) "analytic")
        (Array [Fin 1]) (PyFloat (Fin 0)) 2 = Raise ZeroDivisionError /\
  (forall sc, sc <> PyFloat (Fin 0) ->
     returns (central_freq (mkMorseWavelet (Fin 8) (Fin 3) "analytic") sc)) /\
  central_freq (mkMorseWavelet (Fin 8) (Fin 3) "analytic") (PyFloat (Fin 0))
  = Raise ZeroDivisionError.
Proof.
  destruct (evaluate_errors (fun _ => 0) (Fin 8) (Fin 3) "analytic"
              (mkMorseWavelet (Fin 8) (Fin 3) "analytic") (Array [Fin 1]) 2
              init_8_3)
    as (H1 & H2 & _ & _ & H5).
  split; [exact H1 |]. split; [exact H2 |].
  apply H5. eexists. apply central_freq_base_8_3.
Defined.

Lemma cwt_shape_witness :
  exists freqs rows,
    cwt (fun _ => 0) (mkMorseWavelet (Fin 8) (Fin 3) "analytic")
        [(Fin 1, Fin 0); (Fin 2, Fin 0); (Fin 3, Fin 0)] [Fin 1; Fin 2]
        (PyFloat (Fin 1))
    = Ok (freqs, Coeffs2 rows) /\
    List.length rows = 2%nat /\
    Forall (fun row => List.length row = 3%nat) rows /\
    List.length freqs = 2%nat.
Proof.
  apply (cwt_shape (fun _ => 0) (Fin 8) (Fin 3) "analytic"
           (mkMorseWavelet (Fin 8) (Fin 3) "analytic")
           [(Fin 1, Fin 0); (Fin 2, Fin 0); (Fin 3, Fin 0)] [Fin 1; Fin 2]
           (PyFloat (Fin 1))).
  - apply init_8_3.
  - eexists. apply central_freq_base_8_3.
  - discriminate.
  - discriminate.
  - constructor; [apply gt_Fin_0; lra |].
    constructor; [apply gt_Fin_0; lra | constructor].
  - intros H. inversion H. lra.
Defined.

Lemma scale_not_validated_witness :
  (forall sc, F64.lt (sval sc) (Fin 0) = true ->
     returns (psi_f (fun _ => 0) (mkMorseWavelet (Fin 8) (Fin 3) "analytic")
                    (Array [Fin 1]) sc 0)) /\
  psi_f (fun _ => 0) (mkMorseWavelet (Fin 8) (Fin 3) "analytic")
        (Array [Fin 1]) (PyFloat (Fin 0)) 0 = Raise ZeroDivisionError /\
  returns (psi_f (fun _ => 0) (mkMorseWavelet (Fin 8) (Fin 3) "analytic")
                 (Array [Fin 1]) (NpFloat (Fin 0)) 0) /\
  returns (cwt (fun _ => 0) (mkMorseWavelet (Fin 8) (Fin 3) "analytic")
               [(Fin 1, Fin 0)] [Fin (-1); Fin 0] (PyFloat (Fin 1))).
Proof.
  destruct (scale_not_validated (fun _ => 0) (Fin 8) (Fin 3) "analytic"
              (mkMorseWavelet (Fin 8) (Fin 3) "analytic") (Array [Fin 1]) 0
              [(Fin 1, Fin 0)] [Fin (-1); Fin 0] (PyFloat (Fin 1)) init_8_3)
    as (H1 & H2 & H3 & H4).
  repeat split; try assumption.
  apply H4; [discriminate | discriminate | |].
  - intros H. inversion H. lra.
  - eexists. apply central_freq_base_8_3.
Defined.

(** Arithmetic without rounding is accurate, whatever the error allowed. *)
Lemma exact_arith_accurate (eps : R) : 0 <= eps -> accurate eps exact_arith.
Proof.
  intros He.
  assert (Hz : forall x, Rabs (x - x) <= eps * Rmax (Rabs x) tiny).
  { intros x. replace (x - x) with 0 by ring. rewrite Rabs_R0.
    apply Rmult_le_pos; [assumption |].
    eapply Rle_trans; [apply Rabs_pos | apply Rmax_l]. }
  constructor; intros; try (eexists; split; [reflexivity | apply Hz]).
  cbn [np_pi exact_arith]. replace (PI - PI) with 0 by ring. rewrite Rabs_R0.
  pose proof PI_RGT_0. apply Rmult_le_pos; lra.
Qed.

Lemma analytic_peak_near_2_witness :
  exists fc y,
    central_freq_fl exact_arith (mkMorseWavelet (Fin 8) (Fin 3) "analytic")
                    (PyFloat (Fin 1)) = Ok (Fin fc) /\
    psi_f_fl (fun _ => 0) exact_arith (mkMorseWavelet (Fin 8) (Fin 3) "analytic")
             (Array [Fin fc]) (PyFloat (Fin 1)) 0 = Ok (Array [Fin y]) /\
    Rabs (y - 2) <= 10338 * / 2 ^ 53 /\
    Rabs (y - 2) <= / 10 ^ 10.
Proof.
  apply (analytic_peak_near_2 (fun _ => 0) exact_arith (/ 2 ^ 53) 8 3 1);
    try lra.
  apply exact_arith_accurate. lra.
Defined.


(** * Counterexamples *)

(** The valid spec [beta = 16], [gamma = 2**-7]: the power of
    [central_freq] is [2048 ** 128], which overflows. *)
Lemma init_16_128 :
  init (Fin 16) (Fin (1 / 128)) "analytic"
  = Ok (mkMorseWavelet (Fin 16) (Fin (1 / 128)) "analytic").
Proof. apply init_ok; [apply gt_Fin_0; lra | apply gt_Fin_0; lra | left; reflexivity]. Qed.

Lemma one_over_128 : 1 / (1 / 128) = INR 128.
Proof. rewrite INR_IZR_INZ. simpl. field. Qed.

Lemma central_freq_base_16_128 (n : string) :
  central_freq_base (mkMorseWavelet (Fin 16) (Fin (1 / 128)) n)
  = Raise OverflowError.
Proof.
  rewrite central_freq_base_real by lra.
  apply py_pow_overflow; [lra |].
  replace (16 / (1 / 128)) with 2048 by field.
  rewrite one_over_128, Rpower_pow by lra.
  unfold float_overflow. lra.
Qed.

(** The valid spec [beta = 2**-17], [gamma = 2**-7]: the power of
    [central_freq] is [(2**-10) ** 128], which underflows to 0. *)
Lemma init_tiny :
  init (Fin (1 / 131072)) (Fin (1 / 128)) "analytic"
  = Ok (mkMorseWavelet (Fin (1 / 131072)) (Fin (1 / 128)) "analytic").
Proof. apply init_ok; [apply gt_Fin_0; lra | apply gt_Fin_0; lra | left; reflexivity]. Qed.

Lemma central_freq_base_tiny (n : string) :
  central_freq_base (mkMorseWavelet (Fin (1 / 131072)) (Fin (1 / 128)) n)
  = Ok (Fin 0).
Proof.
  rewrite central_freq_base_real by lra.
  apply py_pow_underflow; [lra |].
  replace (1 / 131072 / (1 / 128)) with (1 / 1024) by field.
  rewrite one_over_128, Rpower_pow by lra.
  unfold float_underflow. lra.
Qed.

Lemma central_freq_tiny (s : R) (n : string) :
  s <> 0 ->
  central_freq (mkMorseWavelet (Fin (1 / 131072)) (Fin (1 / 128)) n)
               (PyFloat (Fin s))
  = Ok (Fin 0).
Proof.
  intros Hs. pose proof PI_neq_0.
  unfold central_freq. rewrite central_freq_base_tiny.
  cbn [bind truediv]. unfold py_truediv.
  rewrite (Reqb_false s 0) by assumption. cbn [bind F64.div F64.mul].
  rewrite (Reqb_false s 0) by assumption. cbn [F64.mul F64.div].
  rewrite (Reqb_false PI 0) by assumption.
  apply f_equal, f_equal. field. split; assumption.
Qed.

(** C6. A negative scale is not rejected: [psi_f] with scale -1 and [cwt]
    with the scales [-1] return; neither raises [ValueError]. *)
Lemma negative_scale_accepted :
  returns (psi_f (fun _ => 0) (mkMorseWavelet (Fin 8) (Fin 3) "analytic")
                 (Array [Fin 1]) (PyFloat (Fin (-1))) 0) /\
  returns (cwt (fun _ => 0) (mkMorseWavelet (Fin 8) (Fin 3) "analytic")
               [(Fin 1, Fin 0)] [Fin (-1)] (PyFloat (Fin 1))).
Proof.
  split.
  - destruct (psi_f_returns (fun _ => 0) (Fin 8) (Fin 3) "analytic" _
                (Array [Fin 1]) (PyFloat (Fin (-1))) 0 init_8_3) as (r & la & H).
    + intros E. inversion E. lra.
    + eexists. exact H.
  - destruct (cwt_returns (fun _ => 0) (Fin 8) (Fin 3) "analytic" _
                [(Fin 1, Fin 0)] [Fin (-1)] (PyFloat (Fin 1)) init_8_3)
      as (fr & W & H & _); try discriminate.
    + eexists. apply central_freq_base_8_3.
    + intros E. inversion E. lra.
    + eexists. exact H.
Qed.

(** C7. With the valid spec [beta = 16], [gamma = 2**-7] and the scale 1,
    [central_freq] raises [OverflowError]. *)
Lemma central_freq_overflows :
  init (Fin 16) (Fin (1 / 128)) "analytic"
  = Ok (mkMorseWavelet (Fin 16) (Fin (1 / 128)) "analytic") /\
  central_freq (mkMorseWavelet (Fin 16) (Fin (1 / 128)) "analytic")
               (PyFloat (Fin 1))
  = Raise OverflowError.
Proof.
  split; [apply init_16_128 |].
  apply central_freq_base_raise. apply central_freq_base_16_128.
Qed.

(** C8. With the valid spec [beta = 16], [gamma = 2**-7], a signal of one
    sample, the scale 1 and the default [dt = 1], [cwt] raises
    [OverflowError] and returns no array; and with the default spec and
    the sampling period 0, a Python number, it raises in [fftfreq]. *)
Lemma cwt_raises_on_valid_input :
  cwt (fun _ => 0) (mkMorseWavelet (Fin 16) (Fin (1 / 128)) "analytic")
      [(Fin 1, Fin 0)] [Fin 1] (PyFloat (Fin 1))
  = Raise OverflowError /\
  cwt (fun _ => 0) (mkMorseWavelet (Fin 8) (Fin 3) "analytic")
      [(Fin 1, Fin 0)] [Fin 1] (PyFloat (Fin 0))
  = Raise ZeroDivisionError.
Proof.
  split.
  - apply (cwt_raises (fun _ => 0) (Fin 16) (Fin (1 / 128)) "analytic").
    + apply init_16_128.
    + discriminate.
    + discriminate.
    + intros E. inversion E. lra.
    + apply central_freq_base_16_128.
  - unfold cwt. simpl List.length.
    change (next_fast_len 1) with 1%nat.
    unfold fftfreq, scalar_scale, truediv, py_truediv, of_nat.
    cbn [F64.mul]. rewrite Reqb_true by (simpl; ring). reflexivity.
Qed.


(** The valid spec [beta = 2**-17], [gamma = 2**-7] with the analytic
    norm: the power of [central_freq] underflows, the central frequency is
    [0.0], and the base wavelet evaluated there is 0, not 2. *)
Lemma analytic_peak_is_not_2 :
  init (Fin (1 / 131072)) (Fin (1 / 128)) "analytic"
  = Ok (mkMorseWavelet (Fin (1 / 131072)) (Fin (1 / 128)) "analytic") /\
  central_freq (mkMorseWavelet (Fin (1 / 131072)) (Fin (1 / 128)) "analytic")
               (PyFloat (Fin 1)) = Ok (Fin 0) /\
  psi_f (fun _ => 0)
        (mkMorseWavelet (Fin (1 / 131072)) (Fin (1 / 128)) "analytic")
        (Array [Fin 0]) (PyFloat (Fin 1)) 0 = Ok (Array [Fin 0]) /\
  Fin 0 <> Fin 2.
Proof.
  split; [apply init_tiny |].
  split; [apply central_freq_tiny; lra |].
  split; [apply (psi_f_zero_freq (fun _ => 0) _ _ 1); try lra; reflexivity |].
  intros E. injection E. lra.
Qed.

(** * Further properties of the module *)

Section MoreProperties.

Variable lngamma : R -> R.

(** Rewrites the comparisons of reals that [lra] settles. *)
Ltac settle_R :=
  repeat match goal with
    | |- context [Rltb ?x ?y] =>
        first [ rewrite (Rltb_true x y) by lra
              | rewrite (Rltb_false x y) by lra ]
    | |- context [Reqb ?x ?y] =>
        first [ rewrite (Reqb_true x y) by lra
              | rewrite (Reqb_false x y) by lra ]
    end.

(** ** The constructor *)

(** X1. What the constructor returns is its three arguments, unchanged,
    and they passed the two checks.  The check [beta <= 0 or gamma <= 0]
    lets NaN and +inf through: with such parameters and a known norm the
    constructor returns the object. *)
Theorem init_outcomes (b g : float64) (n : string) :
  (forall w, init b g n = Ok w ->
     beta w = b /\ gamma w = g /\ norm w = n /\
     F64.le b (Fin 0) = false /\ F64.le g (Fin 0) = false /\
     (n = "analytic"%string \/ n = "energy"%string)) /\
  ((b = NaN \/ b = PInf) -> (g = NaN \/ g = PInf) ->
   (n = "analytic"%string \/ n = "energy"%string) ->
   init b g n = Ok (mkMorseWavelet b g n)).
Proof.
  split.
  - intros w H. apply init_inv in H. destruct H as (-> & Hb & Hg & Hn).
    simpl. auto 10.
  - intros Hb Hg Hn. unfold init.
    assert (Eb : F64.le b (Fin 0) = false) by (destruct Hb as [-> | ->]; reflexivity).
    assert (Eg : F64.le g (Fin 0) = false) by (destruct Hg as [-> | ->]; reflexivity).
    rewrite Eb, Eg. simpl. destruct Hn as [-> | ->]; reflexivity.
Qed.

(** ** [cwt] *)

Lemma bind_ok_inv {A B : Type} (m : result A) (f : A -> result B) (b : B) :
  bind m f = Ok b -> exists a, m = Ok a /\ f a = Ok b.
Proof. destruct m as [a | e]; simpl; intros H; [eauto | discriminate]. Qed.

(** X6. The frequencies [cwt] returns are the central frequencies of the
    scales, in the order of the scales: whenever [cwt] returns, there is
    one frequency per scale, and the one at each index is what
    [central_freq] returns for the scale at that index. *)
Theorem cwt_freqs_are_central (w : MorseWavelet) (signal : list complex)
    (scales : list float64) (dt : scalar) (freqs : list float64) (W : coeffs) :
  cwt lngamma w signal scales dt = Ok (freqs, W) ->
  List.length freqs = List.length scales /\
  forall i s, nth_error scales i = Some s ->
    exists f, nth_error freqs i = Some f /\ central_freq w (NpFloat s) = Ok f.
Proof.
  unfold cwt. intros H.
  apply bind_ok_inv in H. destruct H as (fs & _ & H).
  apply bind_ok_inv in H. destruct H as (f_sig & _ & H).
  apply bind_ok_inv in H. destruct H as (psi & _ & H).
  apply bind_ok_inv in H. destruct H as (W' & _ & H).
  apply bind_ok_inv in H. destruct H as (fr & Hfr & H).
  inversion H; subst fr W'. clear H.
  unfold central_freq_nd in Hfr.
  apply bind_ok_inv in Hfr. destruct Hfr as (p & Hp & Hfr).
  inversion Hfr; subst freqs. clear Hfr.
  split; [apply length_map |].
  intros i s Hi. eexists. split.
  - rewrite nth_error_map, Hi. reflexivity.
  - unfold central_freq. rewrite Hp. reflexivity.
Qed.

(** X7. An empty signal is an error: [cwt] raises for every object, every
    scales and every [dt]; with a finite Python [dt] (the default 1
    included) the error is the [ZeroDivisionError] of the frequency bins,
    [1.0 / (0 * dt)]. *)
Theorem cwt_empty_signal_raises (w : MorseWavelet) (scales : list float64)
    (dt : scalar) :
  (exists e, cwt lngamma w [] scales dt = Raise e) /\
  (forall d, dt = PyFloat (Fin d) ->
     cwt lngamma w [] scales dt = Raise ZeroDivisionError).
Proof.
  assert (E0 : next_fast_len 0 = 0%nat) by reflexivity.
  split.
  - unfold cwt. cbn [List.length]. rewrite E0.
    destruct (fftfreq 0 dt) as [fs | e]; cbn [bind]; [| eauto].
    unfold fft. cbn [Nat.eqb bind]. eauto.
  - intros d ->. unfold cwt. cbn [List.length]. rewrite E0.
    unfold fftfreq, scalar_scale, truediv, py_truediv, of_nat.
    cbn [F64.mul INR]. rewrite Reqb_true by ring. reflexivity.
Qed.

(** X8. No scale is an error when the signal has two samples or more:
    the empty [psi] array does not broadcast against the transformed
    signal, and [cwt] raises [ValueError] (for [dt] other than the Python
    number 0, where the frequency bins raise first). *)
Theorem cwt_empty_scales_raises (w : MorseWavelet) (signal : list complex)
    (dt : scalar) :
  (2 <= List.length signal)%nat -> dt <> PyFloat (Fin 0) ->
  exists msg, cwt lngamma w signal [] dt = Raise (ValueError msg).
Proof.
  intros Hn Hdt.
  pose proof (next_fast_len_ge (List.length signal)) as HL.
  assert (HL0 : next_fast_len (List.length signal) <> O) by lia.
  unfold cwt.
  destruct (fftfreq_ok _ dt HL0 Hdt) as (fs & Hfs & _). rewrite Hfs. cbn [bind].
  destruct (fft_ok signal _ HL0) as (f_sig & Hf & Hflen). rewrite Hf.
  cbn [bind mapM mul_ifft].
  assert (E : Nat.eqb (List.length f_sig) 1 = false) by (apply Nat.eqb_neq; lia).
  rewrite E. cbn [bind]. eauto.
Qed.

Lemma mapM_app {A B : Type} (f : A -> result B) (l1 l2 : list A)
    (bs1 bs2 : list B) :
  mapM f l1 = Ok bs1 -> mapM f l2 = Ok bs2 ->
  mapM f (l1 ++ l2) = Ok (bs1 ++ bs2).
Proof.
  revert bs1. induction l1 as [| a l1 IH]; intros bs1 H1 H2.
  - simpl in H1. inversion H1. assumption.
  - simpl in H1. apply bind_ok_inv in H1. destruct H1 as (b0 & Hb & H1).
    apply bind_ok_inv in H1. destruct H1 as (bs & Hbs & H1).
    inversion H1; subst bs1. clear H1.
    simpl. rewrite Hb. cbn [bind]. rewrite (IH bs Hbs H2). reflexivity.
Qed.

Lemma mul_ifft_rows (f_sig : list complex) (psi : list (list float64))
    (n : nat) (rows : list (list complex)) :
  mul_ifft f_sig psi n = Ok (Coeffs2 rows) ->
  psi <> [] /\
  mapM (fun row => ifft (map (fun cp => cmul (fst cp) (of_real (snd cp)))
                             (combine f_sig row)) n) psi = Ok rows.
Proof.
  unfold mul_ifft. destruct psi as [| row psi'].
  - destruct (Nat.eqb (List.length f_sig) 1); [| discriminate].
    intros H. apply bind_ok_inv in H. destruct H as (r & _ & H). discriminate.
  - intros H. apply bind_ok_inv in H. destruct H as (rs & Hrs & H).
    inversion H; subst rs. split; [discriminate | assumption].
Qed.

(** X9. The scales are transformed one by one and in order: if [cwt]
    returns for the scales [s1] and for the scales [s2], then for the
    scales [s1 ++ s2] it returns the frequencies of the first followed by
    those of the second, and the rows of the first followed by those of
    the second. *)
Theorem cwt_scales_app (w : MorseWavelet) (signal : list complex)
    (s1 s2 : list float64) (dt : scalar)
    (f1 f2 : list float64) (r1 r2 : list (list complex)) :
  cwt lngamma w signal s1 dt = Ok (f1, Coeffs2 r1) ->
  cwt lngamma w signal s2 dt = Ok (f2, Coeffs2 r2) ->
  cwt lngamma w signal (s1 ++ s2) dt = Ok (f1 ++ f2, Coeffs2 (r1 ++ r2)).
Proof.
  unfold cwt. intros H1 H2.
  apply bind_ok_inv in H1. destruct H1 as (fs & Hfs & H1).
  apply bind_ok_inv in H1. destruct H1 as (f_sig & Hf & H1).
  apply bind_ok_inv in H1. destruct H1 as (psi1 & Hpsi1 & H1).
  apply bind_ok_inv in H1. destruct H1 as (W1 & HW1 & H1).
  apply bind_ok_inv in H1. destruct H1 as (fr1 & Hfr1 & H1).
  inversion H1; subst fr1 W1. clear H1.
  rewrite Hfs in H2 |- *. cbn [bind] in H2 |- *.
  rewrite Hf in H2 |- *. cbn [bind] in H2 |- *.
  apply bind_ok_inv in H2. destruct H2 as (psi2 & Hpsi2 & H2).
  apply bind_ok_inv in H2. destruct H2 as (W2 & HW2 & H2).
  apply bind_ok_inv in H2. destruct H2 as (fr2 & Hfr2 & H2).
  inversion H2; subst fr2 W2. clear H2.
  rewrite (mapM_app _ s1 s2 psi1 psi2 Hpsi1 Hpsi2). cbn [bind].
  apply mul_ifft_rows in HW1, HW2.
  destruct HW1 as [Hne1 Hr1]. destruct HW2 as [Hne2 Hr2].
  assert (HW : mul_ifft f_sig (psi1 ++ psi2) (List.length signal)
               = Ok (Coeffs2 (r1 ++ r2))).
  { destruct psi1 as [| row psi1']; [contradiction |].
    change ((row :: psi1') ++ psi2) with (row :: (psi1' ++ psi2)).
    unfold mul_ifft.
    change (row :: (psi1' ++ psi2)) with ((row :: psi1') ++ psi2).
    rewrite (mapM_app _ _ _ _ _ Hr1 Hr2). reflexivity. }
  rewrite HW. cbn [bind].
  unfold central_freq_nd in *.
  apply bind_ok_inv in Hfr1. destruct Hfr1 as (p & Hp & Hfr1).
  rewrite Hp in Hfr2 |- *. cbn [bind] in Hfr2 |- *.
  inversion Hfr1. inversion Hfr2. rewrite map_app. reflexivity.
Qed.

(** ** A negative scale *)

Lemma mul_NaN_r (x : float64) : F64.mul x NaN = NaN.
Proof. destruct x; reflexivity. Qed.

Lemma add_NaN_l (x : float64) : F64.add NaN x = NaN.
Proof. reflexivity. Qed.

Lemma mul_Fin_0_l (v : float64) : F64.mul (Fin 0) v = Fin 0 \/ F64.mul (Fin 0) v = NaN.
Proof.
  destruct v as [y | | |]; simpl; unfold inf_of_sign; settle_R; auto.
  left. apply f_equal. ring.
Qed.

Lemma psi_f_logA_negative_scale (b g s : R) (n : string) (r : float64)
    (sc : scalar) (k : nat) :
  0 < b -> 0 < g -> s < 0 -> sval sc = Fin s ->
  psi_f_logA lngamma (mkMorseWavelet (Fin b) (Fin g) n) r sc k = Ok NaN.
Proof.
  intros Hb Hg Hs Hsc.
  pose proof PI_RGT_0 as Hpi.
  assert (Hq1 : PI * g / s < 0).
  { assert (0 < PI * g / (- s)).
    { apply div_pos; [apply Rmult_lt_0_compat |]; lra. }
    replace (PI * g / s) with (- (PI * g / (- s))) by (field; lra). lra. }
  assert (Hq2 : 2 / s < 0).
  { assert (0 < 2 / (- s)) by (apply div_pos; lra).
    replace (2 / s) with (- (2 / (- s))) by (field; lra). lra. }
  unfold psi_f_logA. cbn [norm beta gamma].
  destruct (String.eqb n "energy").
  - destruct sc as [x | x]; simpl in Hsc; subst x; cbn [truediv F64.mul];
      unfold py_truediv; settle_R; cbn [bind F64.div]; settle_R;
      cbn [F64.log]; settle_R; cbn [F64.add F64.sub F64.mul]; try rewrite mul_NaN_r; reflexivity.
  - destruct sc as [x | x]; simpl in Hsc; subst x; cbn [truediv];
      unfold py_truediv; settle_R; cbn [bind F64.div]; settle_R;
      cbn [bind F64.log]; settle_R; reflexivity.
Qed.

Lemma psi_f_at_nan_logA (w : MorseWavelet) (r scale freq : float64) (k : nat) :
  psi_f_at w r NaN scale k freq = Fin 0 \/ psi_f_at w r NaN scale k freq = NaN.
Proof.
  unfold psi_f_at.
  set (aw := (((scale * Fin 2) * Fin PI) * freq)%f64).
  set (L := eval_genlaguerre k (r - Fin 1)%f64 (Fin 2 * aw ** gamma w)%f64).
  assert (E : F64.exp ((NaN - aw ** gamma w) + (beta w * F64.log aw))%f64 = NaN)
    by reflexivity.
  rewrite E, mul_NaN_r. cbn [isnan]. apply mul_Fin_0_l.
Qed.

(** X10. A negative scale is accepted and gives a wavelet that is nowhere
    positive: for [beta > 0], [gamma > 0] and any negative scale, [psi_f]
    returns an array in which every value is 0 or NaN, whatever the
    frequencies, the order and the norm. *)
Theorem psi_f_negative_scale_degenerate (b g s : R) (n : string) (sc : scalar)
    (fs : list float64) (k : nat) :
  0 < b -> 0 < g -> s < 0 -> sval sc = Fin s ->
  exists vs,
    psi_f lngamma (mkMorseWavelet (Fin b) (Fin g) n) (Array fs) sc k = Ok (Array vs) /\
    List.length vs = List.length fs /\
    Forall (fun v => v = Fin 0 \/ v = NaN) vs.
Proof.
  intros Hb Hg Hs Hsc. unfold psi_f.
  rewrite psi_f_r_pos by lra. cbn [bind].
  rewrite (psi_f_logA_negative_scale b g s n _ sc k) by assumption.
  cbn [bind operand_map]. eexists. split; [reflexivity |].
  split; [apply length_map |].
  apply Forall_map. apply Forall_forall. intros f _. apply psi_f_at_nan_logA.
Qed.

End MoreProperties.

(** * The further properties at concrete inputs *)

Lemma init_outcomes_witness :
  init NaN PInf "energy" = Ok (mkMorseWavelet NaN PInf "energy").
Proof.
  apply (proj2 (init_outcomes NaN PInf "energy"));
    [left; reflexivity | right; reflexivity | right; reflexivity].
Defined.

Lemma cwt_freqs_are_central_witness :
  exists freqs W,
    cwt (fun _ => 0) (mkMorseWavelet (Fin 8) (Fin 3) "analytic")
        [(Fin 1, Fin 0); (Fin 2, Fin 0)] [Fin 1; Fin 2] (PyFloat (Fin 1))
    = Ok (freqs, W) /\
    List.length freqs = 2%nat /\
    forall i s, nth_error [Fin 1; Fin 2] i = Some s ->
      exists f, nth_error freqs i = Some f /\
                central_freq (mkMorseWavelet (Fin 8) (Fin 3) "analytic") (NpFloat s) = Ok f.
Proof.
  destruct (cwt_returns (fun _ => 0) (Fin 8) (Fin 3) "analytic" _
              [(Fin 1, Fin 0); (Fin 2, Fin 0)] [Fin 1; Fin 2] (PyFloat (Fin 1)) init_8_3)
    as (freqs & W & H & _); try discriminate.
  - eexists. apply central_freq_base_8_3.
  - intros E. inversion E. lra.
  - exists freqs, W. split; [assumption |].
    apply (cwt_freqs_are_central (fun _ => 0) _ _ _ _ _ _ H).
Defined.

Lemma cwt_empty_signal_raises_witness :
  cwt (fun _ => 0) (mkMorseWavelet (Fin 8) (Fin 3) "analytic") [] [Fin 1]
      (PyFloat (Fin 1))
  = Raise ZeroDivisionError.
Proof.
  apply (proj2 (cwt_empty_signal_raises (fun _ => 0)
                  (mkMorseWavelet (Fin 8) (Fin 3) "analytic") [Fin 1]
                  (PyFloat (Fin 1))) 1).
  reflexivity.
Defined.

Lemma cwt_empty_scales_raises_witness :
  exists msg,
    cwt (fun _ => 0) (mkMorseWavelet (Fin 8) (Fin 3) "analytic")
        [(Fin 1, Fin 0); (Fin 2, Fin 0)] [] (PyFloat (Fin 1))
    = Raise (ValueError msg).
Proof.
  apply (cwt_empty_scales_raises (fun _ => 0)).
  - simpl. lia.
  - intros E. inversion E. lra.
Defined.

Lemma cwt_scales_app_witness :
  exists f1 f2 r1 r2,
    cwt (fun _ => 0) (mkMorseWavelet (Fin 8) (Fin 3) "analytic")
        [(Fin 1, Fin 0); (Fin 2, Fin 0)] [Fin 1] (PyFloat (Fin 1))
    = Ok (f1, Coeffs2 r1) /\
    cwt (fun _ => 0) (mkMorseWavelet (Fin 8) (Fin 3) "analytic")
        [(Fin 1, Fin 0); (Fin 2, Fin 0)] [Fin 2] (PyFloat (Fin 1))
    = Ok (f2, Coeffs2 r2) /\
    cwt (fun _ => 0) (mkMorseWavelet (Fin 8) (Fin 3) "analytic")
        [(Fin 1, Fin 0); (Fin 2, Fin 0)] ([Fin 1] ++ [Fin 2]) (PyFloat (Fin 1))
    = Ok (f1 ++ f2, Coeffs2 (r1 ++ r2)).
Proof.
  assert (Hdt : PyFloat (Fin 1) <> PyFloat (Fin 0)) by (intros E; inversion E; lra).
  assert (Hp : returns (central_freq_base
                          (mkMorseWavelet (Fin 8) (Fin 3) "analytic")))
    by (eexists; apply central_freq_base_8_3).
  destruct (cwt_returns (fun _ => 0) (Fin 8) (Fin 3) "analytic" _
              [(Fin 1, Fin 0); (Fin 2, Fin 0)] [Fin 1] (PyFloat (Fin 1)) init_8_3 Hp)
    as (f1 & W1 & H1 & Hs1 & _); try discriminate; [exact Hdt |].
  destruct (cwt_returns (fun _ => 0) (Fin 8) (Fin 3) "analytic" _
              [(Fin 1, Fin 0); (Fin 2, Fin 0)] [Fin 2] (PyFloat (Fin 1)) init_8_3 Hp)
    as (f2 & W2 & H2 & Hs2 & _); try discriminate; [exact Hdt |].
  destruct W1 as [row1 | r1]; [contradiction |].
  destruct W2 as [row2 | r2]; [contradiction |].
  exists f1, f2, r1, r2. split; [assumption |]. split; [assumption |].
  apply (cwt_scales_app (fun _ => 0) _ _ _ _ _ _ _ _ _ H1 H2).
Defined.

Lemma psi_f_negative_scale_degenerate_witness :
  exists vs,
    psi_f (fun _ => 0) (mkMorseWavelet (Fin 8) (Fin 3) "analytic")
          (Array [Fin (-1); Fin 1]) (PyFloat (Fin (-2))) 0 = Ok (Array vs) /\
    List.length vs = 2%nat /\
    Forall (fun v => v = Fin 0 \/ v = NaN) vs.
Proof.
  apply (psi_f_negative_scale_degenerate (fun _ => 0) 8 3 (-2) "analytic"
           (PyFloat (Fin (-2))) [Fin (-1); Fin 1] 0); (lra || reflexivity).
Defined.
